(** * Regions, timeline and zoom plugins of wavesurfer.js: region geometry,
      drag/resize updates, virtualization, playback tracking and notches

    Shallow embedding of [src/dist/plugins/regions.js] (classes [SingleRegion]
    and [RegionsPlugin]), of the timeline plugin ([src/unnamed/part_000]) and
    of the listener registration of [src/dist/plugins/zoom.js].

    Conventions of the embedding.
    - A JavaScript number is the rational ([Q]) that the double denotes.
      Arithmetic on doubles rounds: [JS.round] gives the nearest double, ties
      to even, subnormal numbers included, and [JS.add], [JS.sub], [JS.mul],
      [JS.quot] and [JS.lit] round the sum, difference, product, quotient and
      decimal literal.  The arithmetic of [SingleRegion] and [RegionsPlugin]
      (candidate bounds and length of an update, the marker window, the
      percentages of the rendered position, the pixels of a region, the
      bounds of a drag selection, the scroll offset) and of
      [formatTimeCallback] uses them.  Comparisons, [Math.min], [Math.max],
      [Math.round], [Math.floor], [Math.ceil] and the remainder [%] are exact
      on doubles and are taken exact.
    - Three places add or divide without rounding, and say so where they are
      defined: the two sums of [isVisible] and the sum of the timeline's
      [renderIfVisible], which add pixel counts and scroll offsets; the
      quotient [pxPerSec] and the default intervals of the timeline
      ([JS.div], module [Ruler]); and the loop variable of [initTimeline],
      which advances by whole seconds under the default intervals.
    - [NaN] and numbers beyond the largest double are not values of the
      model.  A quotient whose divisor is zero is [None]; where the program
      goes on with an infinite value (the notch interval at zero pixels per
      second, the bounds of a drag selection on a wrapper without width, the
      default of [maxLength]) the model has a constructor for it.
    - Objects with identity (regions, arrays) live in stores indexed by
      references; [===] on objects is equality of references.
    - Methods that can throw return an [Outcome] holding the state reached
      when the call returned or threw.
    - Event emission is recorded in traces, oldest event first.
    - A loop that need not end takes [fuel] and returns [None] when the fuel
      does not suffice.
    - Left out: the content label of a region (the regions of the model have
      none, so that [avoidOverlapping] returns at its first line), the
      lane of a channel and the other styles of the elements, the wheel
      handler of the zoom plugin, and the [destroy] methods of the regions
      and timeline plugins. *)

From Stdlib Require Import QArith Qround Qabs Qpower Lqa Lia.
From stdpp Require Import base option list gmap.

Local Open Scope Q_scope.

(** ** JavaScript number helpers *)

Module JS.

(** [a < b], [a <= b], [a > b], [a >= b] and [a === b] on numbers. *)
Definition le (a b : Q) : bool := Qle_bool a b.
Definition lt (a b : Q) : bool := negb (Qle_bool b a).
Definition ge (a b : Q) : bool := Qle_bool b a.
Definition gt (a b : Q) : bool := negb (Qle_bool a b).
Definition eq (a b : Q) : bool := Qeq_bool a b.

Definition Math_min (a b : Q) : Q := if Qle_bool a b then a else b.
Definition Math_max (a b : Q) : Q := if Qle_bool a b then b else a.

(** [Math.round]: the nearest integer, ties towards plus infinity. *)
Definition Math_round (x : Q) : Q := inject_Z (Qfloor (x + (1 # 2))).

(** [a / b] without rounding; [None] stands for the non-finite result of
    dividing by zero. *)
Definition div (a b : Q) : option Q :=
  if Qeq_bool b 0 then None else Some (a / b).

(** [x || d] on a number: [d] when [x] is zero. *)
Definition or_else (x d : Q) : Q := if Qeq_bool x 0 then d else x.

(** *** Doubles

    [round x] is the double nearest to [x], a tie going to the double whose
    last bit is zero.  The exponents end below, at the subnormal numbers, but
    not above: a result beyond the largest double is outside the model. *)

(** [floor(log2 x)] for a positive [x]. *)
Definition ilog2 (x : Q) : Z :=
  let k := (Z.log2 (Qnum x) - Z.log2 (Zpos (Qden x)))%Z in
  if Qle_bool (2 ^ k) x then k else (k - 1)%Z.

(** The nearest integer, a tie going to the even one. *)
Definition rne (x : Q) : Z :=
  let f := Qfloor x in
  match Qcompare (x - inject_Z f) (1 # 2) with
  | Lt => f
  | Gt => (f + 1)%Z
  | Eq => if Z.even f then f else (f + 1)%Z
  end.

(** The distance between neighbouring doubles at a positive [x]: 52 bits
    below its leading bit, and [2 ^ -1074] from [2 ^ -1022] downwards. *)
Definition ulp (x : Q) : Q := 2 ^ (Z.max (ilog2 x) (-1022) - 52).

Definition round (x : Q) : Q :=
  if Qeq_bool x 0 then 0
  else
    let a := Qabs x in
    let r := Qred (inject_Z (rne (a / ulp a)) * ulp a) in
    if Qle_bool 0 x then r else - r.

(** A decimal literal of the source is the double nearest to it. *)
Definition lit (x : Q) : Q := round x.

(** [a + b], [a - b] and [a * b] on doubles. *)
Definition add (a b : Q) : Q := round (a + b).
Definition sub (a b : Q) : Q := round (a - b).
Definition mul (a b : Q) : Q := round (a * b).

(** [a / b] on doubles; [None] stands for the non-finite result of dividing
    by zero. *)
Definition quot (a b : Q) : option Q :=
  if Qeq_bool b 0 then None else Some (round (a / b)).

End JS.

(** Outcome of a call that may throw: the state when it returned, or the
    state at the moment it threw. *)
Inductive Outcome (A : Type) : Type :=
| Returned (a : A)
| Threw (a : A).
Arguments Returned {A} a.
Arguments Threw {A} a.

Definition outcome_state {A} (o : Outcome A) : A :=
  match o with Returned a | Threw a => a end.

Definition outcome_bind {A} (o : Outcome A) (f : A -> Outcome A) : Outcome A :=
  match o with Returned a => f a | Threw a => Threw a end.

Notation "o >>> f" := (outcome_bind o f) (at level 50, left associativity).

(** ** Region entity ([class SingleRegion]) *)

Inductive Side := SideStart | SideEnd.

(** Events of a region's own stream; [EUpdate] carries the [side] argument
    ([None] is [undefined]: a move). *)
Inductive RegionEvent :=
| EClick | EOver | ELeave | EDblclick
| EUpdate (side : option Side)
| EUpdateEnd | EPlay | ERemove.

Inductive EventName :=
| NClick | NOver | NLeave | NDblclick | NUpdate | NUpdateEnd | NPlay | NRemove.

Definition event_name (e : RegionEvent) : EventName :=
  match e with
  | EClick => NClick | EOver => NOver | ELeave => NLeave
  | EDblclick => NDblclick | EUpdate _ => NUpdate
  | EUpdateEnd => NUpdateEnd | EPlay => NPlay | ERemove => NRemove
  end.

(** Listeners the collection manager registers on a region: the six of
    [saveRegion]'s [regionSubscriptions] and the one of [virtualAppend]. *)
Inductive Handler :=
| SavedUpdate | SavedUpdateEnd | SavedPlay | SavedClick | SavedDblclick
| SavedRemove
| VirtualRemove.

Definition handler_event (h : Handler) : EventName :=
  match h with
  | SavedUpdate => NUpdate | SavedUpdateEnd => NUpdateEnd
  | SavedPlay => NPlay | SavedClick => NClick | SavedDblclick => NDblclick
  | SavedRemove => NRemove | VirtualRemove => NRemove
  end.

Definition is_saved (h : Handler) : bool :=
  match h with VirtualRemove => false | _ => true end.

(** [maxLength]: a number or [Infinity]. *)
Inductive Bound := Finite (q : Q) | Infinity.

Definition le_bound (x : Q) (b : Bound) : bool :=
  match b with Finite q => JS.le x q | Infinity => true end.

(** What [makeDraggable] was attached to. *)
Inductive DragTarget := DragElement | DragLeftHandle | DragRightHandle.

(** One entry of [this.subscriptions]: the unsubscribe closure of a
    [makeDraggable] call; [live] until the closure is called. *)
Record Subscription := { target : DragTarget; live : bool }.

Definition subscribe (t : DragTarget) : Subscription :=
  {| target := t; live := true |}.
Definition unsubscribe (s : Subscription) : Subscription :=
  {| target := target s; live := false |}.

Inductive Part := PartMarker | PartRegion.

(** The region's DOM element: its [part] attribute, [style.left] and
    [style.right] in percent ([None]: not a finite number), and whether the
    two resize handles are among its children. *)
Record Element := {
  part : Part;
  left : option Q;
  right : option Q;
  handles : bool;
}.

Record SingleRegion := {
  totalDuration : Q;
  start : Q;
  end_ : Q;
  drag : bool;
  resize : bool;
  minLength : Q;
  maxLength : Bound;
  element : option Element;          (* [None] is [null], after [remove()] *)
  subscriptions : list Subscription;
  listeners : list Handler;          (* in registration order *)
  trace : list RegionEvent;          (* every [emit] of this region *)
}.

(** Constructor parameters and [setOptions] options.  Identifier, colour and
    channel only reach the element's attributes and style, which are outside
    the modelled state; of the options [color] and [id] it is kept whether
    they are given, because applying them touches the element.  The regions
    of the model have no content label: neither the parameters nor the
    options carry [content]. *)
Record RegionParams := {
  p_start : Q;
  p_end : option Q;
  p_drag : option bool;
  p_resize : option bool;
  p_minLength : option Q;
  p_maxLength : option Bound;
}.

Record RegionOptions := {
  o_color : bool;
  o_drag : option bool;
  o_start : option Q;
  o_end : option Q;
  o_id : bool;
  o_resize : option bool;
}.

Module Region.

Definition with_bounds (s e : Q) (r : SingleRegion) : SingleRegion :=
  {| totalDuration := totalDuration r; start := s; end_ := e;
     drag := drag r; resize := resize r;
     minLength := minLength r; maxLength := maxLength r;
     element := element r; subscriptions := subscriptions r;
     listeners := listeners r; trace := trace r |}.

Definition with_flags (d z : bool) (r : SingleRegion) : SingleRegion :=
  {| totalDuration := totalDuration r; start := start r; end_ := end_ r;
     drag := d; resize := z;
     minLength := minLength r; maxLength := maxLength r;
     element := element r; subscriptions := subscriptions r;
     listeners := listeners r; trace := trace r |}.

Definition with_totalDuration (t : Q) (r : SingleRegion) : SingleRegion :=
  {| totalDuration := t; start := start r; end_ := end_ r;
     drag := drag r; resize := resize r;
     minLength := minLength r; maxLength := maxLength r;
     element := element r; subscriptions := subscriptions r;
     listeners := listeners r; trace := trace r |}.

Definition with_element (el : option Element) (r : SingleRegion) : SingleRegion :=
  {| totalDuration := totalDuration r; start := start r; end_ := end_ r;
     drag := drag r; resize := resize r;
     minLength := minLength r; maxLength := maxLength r;
     element := el; subscriptions := subscriptions r;
     listeners := listeners r; trace := trace r |}.

Definition with_subscriptions (l : list Subscription) (r : SingleRegion) : SingleRegion :=
  {| totalDuration := totalDuration r; start := start r; end_ := end_ r;
     drag := drag r; resize := resize r;
     minLength := minLength r; maxLength := maxLength r;
     element := element r; subscriptions := l;
     listeners := listeners r; trace := trace r |}.

Definition with_listeners (l : list Handler) (r : SingleRegion) : SingleRegion :=
  {| totalDuration := totalDuration r; start := start r; end_ := end_ r;
     drag := drag r; resize := resize r;
     minLength := minLength r; maxLength := maxLength r;
     element := element r; subscriptions := subscriptions r;
     listeners := l; trace := trace r |}.

Definition with_trace (l : list RegionEvent) (r : SingleRegion) : SingleRegion :=
  {| totalDuration := totalDuration r; start := start r; end_ := end_ r;
     drag := drag r; resize := resize r;
     minLength := minLength r; maxLength := maxLength r;
     element := element r; subscriptions := subscriptions r;
     listeners := listeners r; trace := l |}.

(** [clampPosition(time)] *)
Definition clampPosition (totalDuration time : Q) : Q :=
  JS.Math_max 0 (JS.Math_min totalDuration time).

Definition isMarker (r : SingleRegion) : bool := JS.eq (start r) (end_ r).

(** Apply [f] to [this.element]; throws when the element is [null]. *)
Definition on_element (f : Element -> Element) (r : SingleRegion) : Outcome SingleRegion :=
  match element r with
  | Some el => Returned (with_element (Some (f el)) r)
  | None => Threw r
  end.

(** The two percentages [renderPosition] writes. *)
Definition leftPercent (r : SingleRegion) : option Q :=
  (fun x => JS.mul x 100) <$> JS.quot (start r) (totalDuration r).
Definition rightPercent (r : SingleRegion) : option Q :=
  (fun x => JS.mul x 100)
  <$> JS.quot (JS.sub (totalDuration r) (end_ r)) (totalDuration r).

Definition renderPosition (r : SingleRegion) : Outcome SingleRegion :=
  on_element (fun el => {| part := part el; left := leftPercent r;
                           right := rightPercent r; handles := handles el |}) r.

Definition setPart (r : SingleRegion) : Outcome SingleRegion :=
  on_element (fun el => {| part := if isMarker r then PartMarker else PartRegion;
                           left := left el; right := right el;
                           handles := handles el |}) r.

(** [addResizeHandles(element)]: two handle elements created in the
    element, then their two [makeDraggable] subscriptions. *)
Definition addResizeHandles (r : SingleRegion) : Outcome SingleRegion :=
  on_element (fun el => {| part := part el; left := left el; right := right el;
                           handles := true |}) r
  >>> (fun r => Returned
                  (with_subscriptions
                     (subscriptions r ++ [subscribe DragLeftHandle; subscribe DragRightHandle])
                     r)).

(** [removeResizeHandles(element)]: the handles leave the element; their
    subscriptions stay in [this.subscriptions]. *)
Definition removeResizeHandles (r : SingleRegion) : Outcome SingleRegion :=
  on_element (fun el => {| part := part el; left := left el; right := right el;
                           handles := false |}) r.

(** [new SingleRegion(params, totalDuration)] *)
Definition new (params : RegionParams) (totalDuration : Q) : SingleRegion :=
  let start := clampPosition totalDuration (p_start params) in
  let end_ := clampPosition totalDuration (default (p_start params) (p_end params)) in
  let drag := default true (p_drag params) in
  let resize := default true (p_resize params) in
  let marker := JS.eq start end_ in
  let with_handles := negb marker && resize in
  let r0 :=
    {| totalDuration := totalDuration; start := start; end_ := end_;
       drag := drag; resize := resize;
       minLength := default 0 (p_minLength params);
       maxLength := default Infinity (p_maxLength params);
       (* initElement *)
       element := Some {| part := if marker then PartMarker else PartRegion;
                          left := None; right := None;
                          handles := with_handles |};
       subscriptions :=
         (if with_handles
          then [subscribe DragLeftHandle; subscribe DragRightHandle] else [])
         (* initMouseEvents *)
         ++ [subscribe DragElement];
       listeners := []; trace := [] |} in
  outcome_state (renderPosition r0).

(** [_setTotalDuration(totalDuration)] *)
Definition _setTotalDuration (t : Q) (r : SingleRegion) : Outcome SingleRegion :=
  renderPosition (with_totalDuration t r).

(** [setOptions(options)] *)
Definition setOptions (o : RegionOptions) (r : SingleRegion) : Outcome SingleRegion :=
  Returned r
  >>> (fun r => if o_color o then on_element (fun el => el) r else Returned r)
  >>> (fun r => match o_drag o with
                | Some d => on_element (fun el => el) (with_flags d (resize r) r)
                | None => Returned r
                end)
  >>> (fun r => match o_start o, o_end o with
                | None, None => Returned r
                | _, _ =>
                    let marker := isMarker r in
                    let s := clampPosition (totalDuration r) (default (start r) (o_start o)) in
                    let e := clampPosition (totalDuration r)
                               (default (if marker then s else end_ r) (o_end o)) in
                    renderPosition (with_bounds s e r) >>> setPart
                end)
  >>> (fun r => if o_id o then setPart r else Returned r)
  >>> (fun r => match o_resize o with
                | Some z =>
                    if Bool.eqb z (resize r) then Returned r
                    else
                      let marker := isMarker r in
                      let r' := with_flags (drag r) z r in
                      if z && negb marker then addResizeHandles r'
                      else removeResizeHandles r'
                | None => Returned r
                end).

(** The candidate bounds of [_onUpdate] for a time delta, and its guard. *)
Definition candidate (deltaSeconds : Q) (side : option Side) (r : SingleRegion) : Q * Q :=
  let newStart := match side with
                  | None | Some SideStart => JS.add (start r) deltaSeconds
                  | Some SideEnd => start r
                  end in
  let newEnd := match side with
                | None | Some SideEnd => JS.add (end_ r) deltaSeconds
                | Some SideStart => end_ r
                end in
  (newStart, newEnd).

Definition accepts (r : SingleRegion) (c : Q * Q) : bool :=
  let '(newStart, newEnd) := c in
  let length := JS.sub newEnd newStart in
  JS.ge newStart 0
  && JS.le newEnd (totalDuration r)
  && JS.le newStart newEnd
  && JS.ge length (minLength r)
  && le_bound length (maxLength r).

(** [this.emit(event)] as far as the region itself is concerned: one more
    entry of its trace.  Delivery to listeners is [Plugin.emit]. *)
Definition record (e : RegionEvent) (r : SingleRegion) : SingleRegion :=
  with_trace (trace r ++ [e]) r.

End Region.

(** ** Collection manager ([class RegionsPlugin]) and its environment *)

(** Events of the plugin's stream, each carrying the region (a reference). *)
Inductive PluginEvent :=
| RegionCreated (r : nat)
| RegionUpdate (r : nat) (side : option Side)
| RegionUpdated (r : nat)
| RegionClicked (r : nat)
| RegionDoubleClicked (r : nat)
| RegionRemoved (r : nat)
| RegionIn (r : nat)
| RegionOut (r : nat).

Inductive HostCall := HostPlay | HostSetTime (t : Q).

(** The [setTimeout(..., 0)] callback of [virtualAppend] for a region. *)
Inductive Timer := VirtualAppendTimer (r : nat).

(** A change of the container's child list, as a mutation observer sees it. *)
Inductive Mutation := Attached (r : nat) | Detached (r : nat).

#[global] Instance Handler_eq_dec : EqDecision Handler.
Proof. solve_decision. Defined.
#[global] Instance EventName_eq_dec : EqDecision EventName.
Proof. solve_decision. Defined.
#[global] Instance DragTarget_eq_dec : EqDecision DragTarget.
Proof. solve_decision. Defined.
#[global] Instance Side_eq_dec : EqDecision Side.
Proof. solve_decision. Defined.
#[global] Instance PluginEvent_eq_dec : EqDecision PluginEvent.
Proof. solve_decision. Defined.

(** ** The scroll container ([RegionsPlugin.adjustScroll]) *)

Module Layout.

(** What [adjustScroll] reads of the scroll container, the parent element of
    the host's wrapper: [clientWidth], [scrollWidth], [scrollLeft] and the
    left edge of its bounding rectangle. *)
Record ScrollContainer := {
  clientWidth : Q;
  scrollWidth : Q;
  scrollLeft : Q;
  rectLeft : Q;
}.

Definition with_scrollLeft (x : Q) (c : ScrollContainer) : ScrollContainer :=
  {| clientWidth := clientWidth c; scrollWidth := scrollWidth c; scrollLeft := x;
     rectLeft := rectLeft c |}.

(** [adjustScroll(region)], for a scroll container [c] and the left and
    right edges of the bounding rectangle of the region's element.  The new
    [scrollLeft] is the number assigned; what the browser makes of an offset
    beyond the scrollable range is its own business. *)
Definition adjustScroll (c : ScrollContainer) (bboxLeft bboxRight : Q) : ScrollContainer :=
  if JS.le (scrollWidth c) (clientWidth c) then c
  else
    let left := JS.sub bboxLeft (rectLeft c) in
    let right := JS.sub bboxRight (rectLeft c) in
    if JS.lt left 0 then with_scrollLeft (JS.add (scrollLeft c) left) c
    else if JS.gt right (clientWidth c)
         then with_scrollLeft (JS.add (scrollLeft c) (JS.sub right (clientWidth c))) c
         else c.

End Layout.

(** The plugin, the host it is attached to, the overlay container and the
    object stores. *)
Record World := {
  wavesurfer : bool;                (* [this.wavesurfer] is set *)
  duration : Q;                     (* [wavesurfer.getDuration()] *)
  scroll : Q;                       (* [wavesurfer.getScroll()] *)
  width : Q;                        (* [wavesurfer.getWidth()] *)
  readyOnce : list nat;             (* regions whose [once('ready')] callback is pending *)
  scrollSubs : list nat;            (* regions whose [renderIfVisible] listens to [scroll] *)
  hostCalls : list HostCall;        (* calls made on the host *)
  rectWidth : Q;                    (* [regionsContainer.getBoundingClientRect().width] *)
  clientWidth : Q;                  (* [regionsContainer.clientWidth] *)
  children : list nat;              (* child elements of [regionsContainer], by region *)
  mutations : list Mutation;        (* child-list changes of [regionsContainer] *)
  heap : gmap nat SingleRegion;     (* the region objects *)
  arrays : gmap nat (list nat);     (* the array objects *)
  regions : nat;                    (* [this.regions]: a reference to an array *)
  activeRegions : list nat;         (* the [activeRegions] variable of [onInit] *)
  timers : list Timer;              (* pending [setTimeout] callbacks, oldest first *)
  emitted : list PluginEvent;       (* every [emit] of the plugin *)
  scrollContainer : option Layout.ScrollContainer;
                                    (* [wavesurfer.getWrapper().parentElement] *)
  rects : gmap nat (Q * Q);         (* left and right edge of the bounding rectangle of
                                       each region's element; absent: both zero *)
}.

Module World.

Definition with_duration (x : Q) (w : World) : World :=
  {| wavesurfer := wavesurfer w; duration := x; scroll := scroll w;
     width := width w; readyOnce := readyOnce w; scrollSubs := scrollSubs w;
     hostCalls := hostCalls w; rectWidth := rectWidth w;
     clientWidth := clientWidth w; children := children w;
     mutations := mutations w; heap := heap w; arrays := arrays w;
     regions := regions w; activeRegions := activeRegions w;
     timers := timers w; emitted := emitted w;
     scrollContainer := scrollContainer w; rects := rects w |}.

Definition with_scroll (x : Q) (w : World) : World :=
  {| wavesurfer := wavesurfer w; duration := duration w; scroll := x;
     width := width w; readyOnce := readyOnce w; scrollSubs := scrollSubs w;
     hostCalls := hostCalls w; rectWidth := rectWidth w;
     clientWidth := clientWidth w; children := children w;
     mutations := mutations w; heap := heap w; arrays := arrays w;
     regions := regions w; activeRegions := activeRegions w;
     timers := timers w; emitted := emitted w;
     scrollContainer := scrollContainer w; rects := rects w |}.

Definition with_readyOnce (x : list nat) (w : World) : World :=
  {| wavesurfer := wavesurfer w; duration := duration w; scroll := scroll w;
     width := width w; readyOnce := x; scrollSubs := scrollSubs w;
     hostCalls := hostCalls w; rectWidth := rectWidth w;
     clientWidth := clientWidth w; children := children w;
     mutations := mutations w; heap := heap w; arrays := arrays w;
     regions := regions w; activeRegions := activeRegions w;
     timers := timers w; emitted := emitted w;
     scrollContainer := scrollContainer w; rects := rects w |}.

Definition with_scrollSubs (x : list nat) (w : World) : World :=
  {| wavesurfer := wavesurfer w; duration := duration w; scroll := scroll w;
     width := width w; readyOnce := readyOnce w; scrollSubs := x;
     hostCalls := hostCalls w; rectWidth := rectWidth w;
     clientWidth := clientWidth w; children := children w;
     mutations := mutations w; heap := heap w; arrays := arrays w;
     regions := regions w; activeRegions := activeRegions w;
     timers := timers w; emitted := emitted w;
     scrollContainer := scrollContainer w; rects := rects w |}.

Definition with_hostCalls (x : list HostCall) (w : World) : World :=
  {| wavesurfer := wavesurfer w; duration := duration w; scroll := scroll w;
     width := width w; readyOnce := readyOnce w; scrollSubs := scrollSubs w;
     hostCalls := x; rectWidth := rectWidth w; clientWidth := clientWidth w;
     children := children w; mutations := mutations w; heap := heap w;
     arrays := arrays w; regions := regions w;
     activeRegions := activeRegions w; timers := timers w;
     emitted := emitted w; scrollContainer := scrollContainer w;
     rects := rects w |}.

Definition with_children (x : list nat) (w : World) : World :=
  {| wavesurfer := wavesurfer w; duration := duration w; scroll := scroll w;
     width := width w; readyOnce := readyOnce w; scrollSubs := scrollSubs w;
     hostCalls := hostCalls w; rectWidth := rectWidth w;
     clientWidth := clientWidth w; children := x; mutations := mutations w;
     heap := heap w; arrays := arrays w; regions := regions w;
     activeRegions := activeRegions w; timers := timers w;
     emitted := emitted w; scrollContainer := scrollContainer w;
     rects := rects w |}.

Definition with_mutations (x : list Mutation) (w : World) : World :=
  {| wavesurfer := wavesurfer w; duration := duration w; scroll := scroll w;
     width := width w; readyOnce := readyOnce w; scrollSubs := scrollSubs w;
     hostCalls := hostCalls w; rectWidth := rectWidth w;
     clientWidth := clientWidth w; children := children w; mutations := x;
     heap := heap w; arrays := arrays w; regions := regions w;
     activeRegions := activeRegions w; timers := timers w;
     emitted := emitted w; scrollContainer := scrollContainer w;
     rects := rects w |}.

Definition with_heap (x : gmap nat SingleRegion) (w : World) : World :=
  {| wavesurfer := wavesurfer w; duration := duration w; scroll := scroll w;
     width := width w; readyOnce := readyOnce w; scrollSubs := scrollSubs w;
     hostCalls := hostCalls w; rectWidth := rectWidth w;
     clientWidth := clientWidth w; children := children w;
     mutations := mutations w; heap := x; arrays := arrays w;
     regions := regions w; activeRegions := activeRegions w;
     timers := timers w; emitted := emitted w;
     scrollContainer := scrollContainer w; rects := rects w |}.

Definition with_arrays (x : gmap nat (list nat)) (w : World) : World :=
  {| wavesurfer := wavesurfer w; duration := duration w; scroll := scroll w;
     width := width w; readyOnce := readyOnce w; scrollSubs := scrollSubs w;
     hostCalls := hostCalls w; rectWidth := rectWidth w;
     clientWidth := clientWidth w; children := children w;
     mutations := mutations w; heap := heap w; arrays := x;
     regions := regions w; activeRegions := activeRegions w;
     timers := timers w; emitted := emitted w;
     scrollContainer := scrollContainer w; rects := rects w |}.

Definition with_regions (x : nat) (w : World) : World :=
  {| wavesurfer := wavesurfer w; duration := duration w; scroll := scroll w;
     width := width w; readyOnce := readyOnce w; scrollSubs := scrollSubs w;
     hostCalls := hostCalls w; rectWidth := rectWidth w;
     clientWidth := clientWidth w; children := children w;
     mutations := mutations w; heap := heap w; arrays := arrays w;
     regions := x; activeRegions := activeRegions w; timers := timers w;
     emitted := emitted w; scrollContainer := scrollContainer w;
     rects := rects w |}.

Definition with_activeRegions (x : list nat) (w : World) : World :=
  {| wavesurfer := wavesurfer w; duration := duration w; scroll := scroll w;
     width := width w; readyOnce := readyOnce w; scrollSubs := scrollSubs w;
     hostCalls := hostCalls w; rectWidth := rectWidth w;
     clientWidth := clientWidth w; children := children w;
     mutations := mutations w; heap := heap w; arrays := arrays w;
     regions := regions w; activeRegions := x; timers := timers w;
     emitted := emitted w; scrollContainer := scrollContainer w;
     rects := rects w |}.

Definition with_timers (x : list Timer) (w : World) : World :=
  {| wavesurfer := wavesurfer w; duration := duration w; scroll := scroll w;
     width := width w; readyOnce := readyOnce w; scrollSubs := scrollSubs w;
     hostCalls := hostCalls w; rectWidth := rectWidth w;
     clientWidth := clientWidth w; children := children w;
     mutations := mutations w; heap := heap w; arrays := arrays w;
     regions := regions w; activeRegions := activeRegions w; timers := x;
     emitted := emitted w; scrollContainer := scrollContainer w;
     rects := rects w |}.

Definition with_emitted (x : list PluginEvent) (w : World) : World :=
  {| wavesurfer := wavesurfer w; duration := duration w; scroll := scroll w;
     width := width w; readyOnce := readyOnce w; scrollSubs := scrollSubs w;
     hostCalls := hostCalls w; rectWidth := rectWidth w;
     clientWidth := clientWidth w; children := children w;
     mutations := mutations w; heap := heap w; arrays := arrays w;
     regions := regions w; activeRegions := activeRegions w;
     timers := timers w; emitted := x; scrollContainer := scrollContainer w;
     rects := rects w |}.

Definition with_scrollContainer (x : option Layout.ScrollContainer) (w : World) : World :=
  {| wavesurfer := wavesurfer w; duration := duration w; scroll := scroll w;
     width := width w; readyOnce := readyOnce w; scrollSubs := scrollSubs w;
     hostCalls := hostCalls w; rectWidth := rectWidth w;
     clientWidth := clientWidth w; children := children w;
     mutations := mutations w; heap := heap w; arrays := arrays w;
     regions := regions w; activeRegions := activeRegions w;
     timers := timers w; emitted := emitted w; scrollContainer := x;
     rects := rects w |}.

End World.

Module Plugin.
Import World.

(** *** Stores *)

Definition array_at (a : nat) (w : World) : list nat := default [] (arrays w !! a).

(** The current contents of [this.regions]. *)
Definition regions_of (w : World) : list nat := array_at (regions w) w.

(** [l.includes(r)] and [l.filter(x => x !== r)] on arrays of references. *)
Definition includes (l : list nat) (r : nat) : bool := existsb (Nat.eqb r) l.
Definition without (r : nat) (l : list nat) : list nat :=
  List.filter (fun x => negb (Nat.eqb x r)) l.

(** A new array object holding [l]. *)
Definition new_array (l : list nat) (w : World) : nat * World :=
  let a := fresh (dom (arrays w)) in
  (a, with_arrays (<[a := l]> (arrays w)) w).

(** In-place mutation of the array at [a] (push, splice, [length = 0], ...),
    by the plugin or by client code holding the reference. *)
Definition array_mutate (a : nat) (f : list nat -> list nat) (w : World) : World :=
  with_arrays (<[a := f (array_at a w)]> (arrays w)) w.

Definition update_region (f : SingleRegion -> SingleRegion) (r : nat) (w : World) : World :=
  with_heap (alter f r (heap w)) w.

(** A region method run on the object at [r]. *)
Definition lift (f : SingleRegion -> Outcome SingleRegion) (r : nat) (w : World) : Outcome World :=
  match heap w !! r with
  | None => Returned w
  | Some reg =>
      match f reg with
      | Returned reg' => Returned (with_heap (<[r := reg']> (heap w)) w)
      | Threw reg' => Threw (with_heap (<[r := reg']> (heap w)) w)
      end
  end.

(** *** The container's children *)

(** [container.appendChild(element)]: the element becomes the last child,
    leaving its previous place if it was a child already. *)
Definition appendChild (r : nat) (w : World) : World :=
  with_mutations
    (mutations w ++ (if includes (children w) r then [Detached r] else []) ++ [Attached r])
    (with_children (without r (children w) ++ [r]) w).

(** [element.remove()]: nothing happens to an element that has no parent. *)
Definition removeChild (r : nat) (w : World) : World :=
  with_mutations
    (mutations w ++ (if includes (children w) r then [Detached r] else []))
    (with_children (without r (children w)) w).

(** *** Events *)

(** [this.emit(...)] of the plugin. *)
Definition plugin_emit (e : PluginEvent) (w : World) : World :=
  with_emitted (emitted w ++ [e]) w.

(** [adjustScroll(region)] of the plugin: the scroll container and the
    bounding rectangle of the region's element are read, [scrollLeft] is
    written. *)
Definition adjustScroll (r : nat) (w : World) : World :=
  if negb (wavesurfer w) then w
  else
    match scrollContainer w with
    | None => w
    | Some c =>
        let '(bboxLeft, bboxRight) := default (0, 0) (rects w !! r) in
        with_scrollContainer (Some (Layout.adjustScroll c bboxLeft bboxRight)) w
    end.

(** The listeners of [saveRegion] and [virtualAppend].  The [update]
    listener calls [adjustScroll] for a move.  [avoidOverlapping], which the
    [update-end] listener calls, returns at its first line for a region
    without a content label. *)
Definition run_handler (h : Handler) (e : RegionEvent) (r : nat) (w : World) : World :=
  match h with
  | SavedUpdate =>
      match e with
      | EUpdate side =>
          plugin_emit (RegionUpdate r side)
            (match side with
             | None => adjustScroll r w
             | Some _ => w
             end)
      | _ => w
      end
  | SavedUpdateEnd => plugin_emit (RegionUpdated r) w
  | SavedPlay =>
      match heap w !! r with
      | Some reg =>
          if wavesurfer w
          then with_hostCalls (hostCalls w ++ [HostPlay; HostSetTime (start reg)]) w
          else w
      | None => w
      end
  | SavedClick => plugin_emit (RegionClicked r) w
  | SavedDblclick => plugin_emit (RegionDoubleClicked r) w
  | SavedRemove =>
      (* regionSubscriptions.forEach((unsubscribe) => unsubscribe()) *)
      let w1 := update_region
                  (fun reg => Region.with_listeners
                                (List.filter (fun h => negb (is_saved h)) (listeners reg)) reg)
                  r w in
      (* this.regions = this.regions.filter((reg) => reg !== region) *)
      let '(a, w2) := new_array (without r (regions_of w1)) w1 in
      plugin_emit (RegionRemoved r) (with_regions a w2)
  | VirtualRemove =>
      (* once: the listener goes; unsubscribe: so does the scroll listener *)
      let w1 := update_region
                  (fun reg => Region.with_listeners
                                (List.filter (fun h => is_saved h) (listeners reg)) reg)
                  r w in
      with_scrollSubs (without r (scrollSubs w1)) w1
  end.

Definition listening (h : Handler) (r : nat) (w : World) : bool :=
  match heap w !! r with
  | Some reg => bool_decide (h ∈ listeners reg)
  | None => false
  end.

(** Modelled from the spec: [EventEmitter.emit] ([event-emitter.js] is not
    among the sources).  The event is one more entry of the region's stream
    and goes to the listeners registered for its name, in registration
    order; a listener that an earlier one has unsubscribed is skipped. *)
Definition deliver (e : RegionEvent) (r : nat) (w : World) (h : Handler) : World :=
  if listening h r w then run_handler h e r w else w.

Definition emit (e : RegionEvent) (r : nat) (w : World) : World :=
  match heap w !! r with
  | None => w
  | Some reg =>
      foldl (deliver e r) (update_region (Region.record e) r w)
        (List.filter (fun h => bool_decide (handler_event h = event_name e))
           (listeners reg))
  end.

(** *** Region methods, on the object at a reference *)

(** [_onUpdate(dx, side)].  A zero width of the parent makes [deltaSeconds]
    non-finite, hence a candidate bound non-finite, and the guard false. *)
Definition _onUpdate (dx : Q) (side : option Side) (r : nat) (w : World) : Outcome World :=
  match heap w !! r with
  | None => Returned w
  | Some reg =>
      match element reg with
      | None => Threw w
      | Some _ =>
          if negb (includes (children w) r) then Returned w
          else
            match JS.quot dx (rectWidth w) with
            | None => Returned w
            | Some q =>
                let deltaSeconds := JS.mul q (totalDuration reg) in
                let c := Region.candidate deltaSeconds side reg in
                if Region.accepts reg c then
                  lift (fun reg => Region.renderPosition
                                     (Region.with_bounds (fst c) (snd c) reg)) r w
                  >>> (fun w => Returned (emit (EUpdate side) r w))
                else Returned w
            end
      end
  end.

Definition onMove (dx : Q) (r : nat) (w : World) : Outcome World :=
  match heap w !! r with
  | Some reg => if drag reg then _onUpdate dx None r w else Returned w
  | None => Returned w
  end.

Definition onResize (dx : Q) (side : Side) (r : nat) (w : World) : Outcome World :=
  match heap w !! r with
  | Some reg => if resize reg then _onUpdate dx (Some side) r w else Returned w
  | None => Returned w
  end.

Definition onEndResizing (r : nat) (w : World) : World :=
  match heap w !! r with
  | Some reg => if resize reg then emit EUpdateEnd r w else w
  | None => w
  end.

(** [play()] *)
Definition play (r : nat) (w : World) : World := emit EPlay r w.

(** [remove()] *)
Definition remove (r : nat) (w : World) : Outcome World :=
  let w1 := emit ERemove r w in
  let w2 := update_region
              (fun reg => Region.with_subscriptions
                            (unsubscribe <$> subscriptions reg) reg) r w1 in
  match heap w2 !! r with
  | None => Returned w2
  | Some reg =>
      match element reg with
      | None => Threw w2
      | Some _ => Returned (update_region (Region.with_element None) r (removeChild r w2))
      end
  end.

(** Modelled from the spec: [makeDraggable] ([draggable.js] is not among the
    sources), the drag primitive that turns pointer events on its target
    into move and end callbacks until its unsubscribe closure is called. *)
Definition armed (t : DragTarget) (reg : SingleRegion) : bool :=
  existsb (fun s => live s && bool_decide (target s = t)) (subscriptions reg).

Definition drag_move (t : DragTarget) (dx : Q) (r : nat) (w : World) : Outcome World :=
  match heap w !! r with
  | None => Returned w
  | Some reg =>
      if armed t reg then
        match t with
        | DragElement => onMove dx r w
        | DragLeftHandle => onResize dx SideStart r w
        | DragRightHandle => onResize dx SideEnd r w
        end
      else Returned w
  end.

Definition drag_end (t : DragTarget) (r : nat) (w : World) : World :=
  match heap w !! r with
  | None => w
  | Some reg =>
      if armed t reg then
        match t with
        | DragElement => if drag reg then emit EUpdateEnd r w else w
        | _ => onEndResizing r w
        end
      else w
  end.

(** The mouse listeners of [initMouseEvents]: a mouse event reaches the
    element only while it is in the document. *)
Definition mouse (e : RegionEvent) (r : nat) (w : World) : World :=
  match e with
  | EClick | EOver | ELeave | EDblclick =>
      if includes (children w) r then emit e r w else w
  | _ => w
  end.

(** *** Virtualization *)

(** The pixel interval [start, start + width) computed by [renderIfVisible];
    [None] when the duration is zero. *)
Definition pixels (reg : SingleRegion) (w : World) : option (Q * Q) :=
  match JS.quot (start reg) (duration w),
        JS.quot (JS.sub (end_ reg) (start reg)) (duration w) with
  | Some a, Some b =>
      Some (JS.Math_round (JS.mul a (clientWidth w)),
            JS.or_else (JS.Math_round (JS.mul b (clientWidth w))) 1)
  | _, _ => None
  end.

(** [isVisible].  With a zero duration the quotients are not finite and both
    comparisons cannot hold together (a region's [start] is never negative).
    The two sums add whole numbers of pixels and scroll offsets; they are
    taken without rounding. *)
Definition isVisible (reg : SingleRegion) (w : World) : bool :=
  match pixels reg w with
  | Some (startPx, widthPx) =>
      JS.gt (startPx + widthPx) (scroll w) && JS.lt startPx (scroll w + width w)
  | None => false
  end.

(** The [renderIfVisible] closure of [virtualAppend] for the region at [r]. *)
Definition renderIfVisible (r : nat) (w : World) : World :=
  if negb (wavesurfer w) then w
  else
    match heap w !! r with
    | None => w
    | Some reg => if isVisible reg w then appendChild r w else removeChild r w
    end.

(** [virtualAppend(region, container, element)]: everything happens in a
    timer. *)
Definition virtualAppend (r : nat) (w : World) : World :=
  with_timers (timers w ++ [VirtualAppendTimer r]) w.

Definition run_timer (t : Timer) (w : World) : World :=
  match t with
  | VirtualAppendTimer r =>
      if negb (wavesurfer w) then w
      else
        let w1 := renderIfVisible r w in
        let w2 := with_scrollSubs (scrollSubs w1 ++ [r]) w1 in
        update_region (fun reg => Region.with_listeners (listeners reg ++ [VirtualRemove]) reg)
          r w2
  end.

(** The event loop runs the oldest pending timer. *)
Definition tick (w : World) : World :=
  match timers w with
  | [] => w
  | t :: ts => run_timer t (with_timers ts w)
  end.

(** The host scrolls to [x] and signals [scroll]. *)
Definition on_scroll (x : Q) (w : World) : World :=
  let w1 := with_scroll x w in
  foldl (fun w r => renderIfVisible r w) w1 (scrollSubs w1).

(** *** Collection *)

(** The [regionSubscriptions] of [saveRegion]. *)
Definition regionSubscriptions : list Handler :=
  [SavedUpdate; SavedUpdateEnd; SavedPlay; SavedClick; SavedDblclick; SavedRemove].

(** [saveRegion(region)]: the timer of [virtualAppend], the push onto
    [this.regions], the six listeners, [region-created]; [avoidOverlapping]
    returns at its first line for a region without a content label. *)
Definition saveRegion (r : nat) (w : World) : World :=
  let w1 := virtualAppend r w in
  let w2 := array_mutate (regions w1) (fun l => l ++ [r]) w1 in
  let w3 := update_region
              (fun reg => Region.with_listeners (listeners reg ++ regionSubscriptions) reg)
              r w2 in
  plugin_emit (RegionCreated r) w3.

(** [addRegion(options)]: [None] when it throws (before any effect), else
    the returned region and the state. *)
Definition addRegion (options : RegionParams) (w : World) : option (nat * World) :=
  if negb (wavesurfer w) then None
  else
    let region := Region.new options (duration w) in
    let r := fresh (dom (heap w)) in
    let w1 := with_heap (<[r := region]> (heap w)) w in
    if JS.eq (duration w) 0
    then Some (r, with_readyOnce (readyOnce w1 ++ [r]) w1)
    else Some (r, saveRegion r w1).

(** The host signals [ready] with the duration [d]: the pending callbacks of
    [addRegion] run once each, in order; a throwing one ends the signal. *)
Fixpoint ready_callbacks (d : Q) (pending : list nat) (w : World) : Outcome World :=
  match pending with
  | [] => Returned w
  | r :: rest =>
      lift (Region._setTotalDuration d) r w
      >>> (fun w => ready_callbacks d rest (saveRegion r (with_readyOnce rest w)))
  end.

Definition on_ready (d : Q) (w : World) : Outcome World :=
  ready_callbacks d (readyOnce w) (with_duration d w).

(** [getRegions()]: the reference held in [this.regions]. *)
Definition getRegions (w : World) : nat := regions w.

Fixpoint remove_each (l : list nat) (w : World) : Outcome World :=
  match l with
  | [] => Returned w
  | r :: l' => remove r w >>> remove_each l'
  end.

(** [clearRegions()] *)
Definition clearRegions (w : World) : Outcome World :=
  remove_each (regions_of w) w
  >>> (fun w => let '(a, w') := new_array [] w in Returned (with_regions a w')).

(** *** Playback tracking: the [timeupdate] listener of [onInit] *)

Definition isPlayed (currentTime : Q) (reg : SingleRegion) : bool :=
  JS.le (start reg) currentTime
  && JS.ge (if JS.eq (end_ reg) (start reg)
            then JS.add (start reg) (JS.lit 0.05) else end_ reg)
       currentTime.

Definition playedRegions (currentTime : Q) (w : World) : list nat :=
  List.filter (fun r => match heap w !! r with
                        | Some reg => isPlayed currentTime reg
                        | None => false
                        end) (regions_of w).

Definition on_timeupdate (currentTime : Q) (w : World) : World :=
  let played := playedRegions currentTime w in
  let active := activeRegions w in
  let w1 := foldl (fun w r => if negb (includes active r)
                              then plugin_emit (RegionIn r) w else w) w played in
  let w2 := foldl (fun w r => if negb (includes played r)
                              then plugin_emit (RegionOut r) w else w) w1 active in
  with_activeRegions played w2.

(** A plugin freshly attached to a host: [new RegionsPlugin()] followed by
    [onInit()]; the host's wrapper has no parent element yet. *)
Definition init (duration scroll width rectWidth clientWidth : Q) : World :=
  {| wavesurfer := true; duration := duration; scroll := scroll; width := width;
     readyOnce := []; scrollSubs := []; hostCalls := [];
     rectWidth := rectWidth; clientWidth := clientWidth; children := [];
     mutations := [];
     heap := ∅; arrays := {[ 0%nat := [] ]}; regions := 0%nat;
     activeRegions := []; timers := []; emitted := [];
     scrollContainer := None; rects := ∅ |}.

End Plugin.

(** ** The notch virtualization of the timeline plugin ([TimelinePlugin.virtualAppend]) *)

Module Timeline.

(** The state a [virtualAppend] call closes over, for one notch: the
    [wasVisible] variable, whether the notch is a child of the timeline, and
    the calls made on the DOM. *)
Inductive DomCall := AppendChild | RemoveElement.

Record Notch := {
  wasVisible : bool;
  attached : bool;
  calls : list DomCall;
}.

(** The [renderIfVisible(scrollLeft, scrollRight)] closure, for a notch at
    pixel [start] whose element is [width] pixels wide.  The sum
    [start + width] is taken without rounding. *)
Definition renderIfVisible (start width scrollLeft scrollRight : Q) (n : Notch) : Notch :=
  let isVisible := JS.gt start scrollLeft && JS.lt (start + width) scrollRight in
  if Bool.eqb isVisible (wasVisible n) then n
  else if isVisible
       then {| wasVisible := true; attached := true; calls := calls n ++ [AppendChild] |}
       else {| wasVisible := false; attached := false; calls := calls n ++ [RemoveElement] |}.

End Timeline.

(** ** Specification predicates *)

Import World Plugin.

Definition within_max (x : Q) (b : Bound) : Prop :=
  match b with Finite q => x <= q | Infinity => True end.

(** The geometry invariant of a region; its length [end - start] is the
    difference the program computes, a double. *)
Definition geometry_invariant (reg : SingleRegion) : Prop :=
  0 <= start reg /\ start reg <= end_ reg /\ end_ reg <= totalDuration reg /\
  minLength reg <= JS.sub (end_ reg) (start reg) /\
  within_max (JS.sub (end_ reg) (start reg)) (maxLength reg).

(** Both bounds lie in [[0, totalDuration]]. *)
Definition in_range (reg : SingleRegion) : Prop :=
  (0 <= start reg /\ start reg <= totalDuration reg) /\
  (0 <= end_ reg /\ end_ reg <= totalDuration reg).

(** A candidate [(newStart, newEnd)] breaks one of the bounds of a region. *)
Definition violates (reg : SingleRegion) (c : Q * Q) : Prop :=
  fst c < 0 \/ totalDuration reg < snd c \/ snd c < fst c \/
  JS.sub (snd c) (fst c) < minLength reg \/
  ~ within_max (JS.sub (snd c) (fst c)) (maxLength reg).

(** A region that [saveRegion] has put into the collection and that has not
    been removed: it is in the collection array, its element exists, and its
    listeners are those of [saveRegion], followed by the one of
    [virtualAppend] once the timer has run. *)
Definition persisted (r : nat) (w : World) : Prop :=
  In r (regions_of w) /\
  exists reg, heap w !! r = Some reg /\ is_Some (element reg) /\
    (listeners reg = regionSubscriptions
     \/ listeners reg = regionSubscriptions ++ [VirtualRemove]).

(** A sequence of drag and resize updates of one region. *)
Fixpoint updates (l : list (Q * option Side)) (r : nat) (w : World) : World :=
  match l with
  | [] => w
  | (dx, side) :: l' => updates l' r (outcome_state (_onUpdate dx side r w))
  end.

(** What an accepted update leaves at the region's reference. *)
Definition updated (side : option Side) (c : Q * Q) (ls : list Handler) (reg : SingleRegion)
  : SingleRegion :=
  Region.with_listeners ls
    (Region.record (EUpdate side)
       (outcome_state (Region.renderPosition (Region.with_bounds (fst c) (snd c) reg)))).

(** How often [x] occurs in [l]. *)
Definition occurrences {A} `{EqDecision A} (x : A) (l : list A) : nat :=
  length (List.filter (fun y => bool_decide (y = x)) l).

(** The events of one [timeupdate]: [region-in] for the played regions that
    were not active, then [region-out] for the active ones no longer played. *)
Definition transitions (old new : list nat) : list PluginEvent :=
  (RegionIn <$> List.filter (fun r => negb (includes old r)) new)
  ++ (RegionOut <$> List.filter (fun r => negb (includes new r)) old).




(** What the [ready] callback of [addRegion] makes of the region object:
    the new duration, rendered, and the listeners of [saveRegion]. *)
Definition readied (d : Q) (reg : SingleRegion) : SingleRegion :=
  let reg' := outcome_state (Region._setTotalDuration d reg) in
  Region.with_listeners (listeners reg' ++ regionSubscriptions) reg'.

(** Every pending [ready] callback is for a region whose element exists. *)
Definition pending_ready (pending : list nat) (w : World) : Prop :=
  forall x, In x pending ->
    exists reg, heap w !! x = Some reg /\ is_Some (element reg).

(** The collection holds references to region objects only. *)
Definition collection_allocated (w : World) : Prop :=
  forall x, In x (regions_of w) -> is_Some (heap w !! x).

(** ** Examples used below *)

Module Examples.

Definition params (s : Q) (e : option Q) : RegionParams :=
  {| p_start := s; p_end := e; p_drag := None; p_resize := None;
     p_minLength := None; p_maxLength := None |}.

(** A host with a track of 10 seconds, shown 100 pixels wide, unscrolled. *)
Definition host10 : World := init 10 0 100 100 100.

(** The same host before the duration is known. *)
Definition host0 : World := init 0 0 100 100 100.

(** The state after [addRegion(options)]. *)
Definition added (options : RegionParams) (w : World) : World :=
  match addRegion options w with Some (_, w') => w' | None => w end.

(** The region [[2, 4]] (reference 0) added to [host10], its
    virtualization timer run: the region is shown. *)
Definition shown_2_4 : World := tick (added (params 2 (Some 4)) host10).

(** Two regions, [[2, 4]] and [[6, 8]] (references 0 and 1), both shown. *)
Definition shown_two : World :=
  tick (tick (added (params 6 (Some 8)) (added (params 2 (Some 4)) host10))).

End Examples.

(** ** Option records for [setOptions] *)

Module Options.

(** [{}] *)
Definition none : RegionOptions :=
  {| o_color := false; o_drag := None; o_start := None; o_end := None;
     o_id := false; o_resize := None |}.

(** [{drag: d}], [{start: s}] and [{resize: z}] *)
Definition only_drag (d : bool) : RegionOptions :=
  {| o_color := false; o_drag := Some d; o_start := None; o_end := None;
     o_id := false; o_resize := None |}.

Definition only_start (s : Q) : RegionOptions :=
  {| o_color := false; o_drag := None; o_start := Some s; o_end := None;
     o_id := false; o_resize := None |}.

Definition only_resize (z : bool) : RegionOptions :=
  {| o_color := false; o_drag := None; o_start := None; o_end := None;
     o_id := false; o_resize := Some z |}.

End Options.

(** ** What the plugin makes of a region's events *)




(** ** Removal of persisted regions *)

(** What [remove()] leaves of the object of a persisted region. *)
Definition removed (reg : SingleRegion) : SingleRegion :=
  Region.with_element None
    (Region.with_subscriptions (unsubscribe <$> subscriptions reg)
       (Region.with_listeners [] (Region.record ERemove reg))).

(** [l.filter(x => !gone.includes(x))] *)
Definition without_all (gone l : list nat) : list nat :=
  List.filter (fun x => negb (includes gone x)) l.

(** The shown region [[2, 4]] (reference 0) while it is being played. *)
Definition playing_2_4 : World := on_timeupdate 3 Examples.shown_2_4.

(** ** Creating a region by dragging ([RegionsPlugin.enableDragSelection]) *)

Module DragSelection.

(** The variables [region] and [startX] that the three callbacks close
    over. *)
Record Closure := { region : option nat; startX : Q }.

Definition initialSize : Q := 5.

(** A quotient or a product that may be infinite. *)
Inductive Ext := Fin (q : Q) | PInf | NInf.

(** [a / b] and [e * d] on doubles, the infinite results included; [None]
    stands for [NaN]. *)
Definition ext_quot (a b : Q) : option Ext :=
  if JS.eq b 0
  then if JS.gt a 0 then Some PInf else if JS.lt a 0 then Some NInf else None
  else Some (Fin (JS.round (a / b))).

Definition ext_mul (e : Ext) (d : Q) : option Ext :=
  match e with
  | Fin q => Some (Fin (JS.mul q d))
  | PInf => if JS.gt d 0 then Some PInf else if JS.lt d 0 then Some NInf else None
  | NInf => if JS.gt d 0 then Some NInf else if JS.lt d 0 then Some PInf else None
  end.

(** [clampPosition(time)] for such a [time]: [Math.min(totalDuration,
    Infinity)] is [totalDuration] and [Math.max(0, -Infinity)] is 0. *)
Definition ext_clamp (totalDuration : Q) (time : Ext) : Q :=
  match time with
  | Fin q => Region.clampPosition totalDuration q
  | PInf => JS.Math_max 0 totalDuration
  | NInf => 0
  end.

(** [enableDragSelection(options, threshold)]: [None] when there is no
    wrapper to listen on (the function returned then does nothing), else the
    closure of the armed gesture. *)
Definition enableDragSelection (w : World) : option Closure :=
  if wavesurfer w then Some {| region := None; startX := 0 |} else None.

(** The callback for the start of a drag at [x]; [width] is the width of the
    wrapper's bounding rectangle.  With a width of zero [start] and [end] are
    infinite or [NaN]; the result is [None] when one of them is [NaN].  The
    constructor gets [start] and [end] with its [clampPosition] applied
    already, which it applies once more without effect: a parameter of the
    model is a finite number. *)
Definition onDragStart (options : RegionParams) (width x : Q) (c : Closure) (w : World)
  : option (Closure * World) :=
  let c1 := {| region := region c; startX := x |} in
  if negb (wavesurfer w) then Some (c1, w)
  else
    match ext_quot x width ≫= (fun a => ext_mul a (duration w)),
          ext_quot (JS.add x initialSize) width ≫= (fun b => ext_mul b (duration w)) with
    | Some start, Some end_ =>
        let reg := Region.new
                     {| p_start := ext_clamp (duration w) start;
                        p_end := Some (ext_clamp (duration w) end_);
                        p_drag := p_drag options; p_resize := p_resize options;
                        p_minLength := p_minLength options;
                        p_maxLength := p_maxLength options |}
                     (duration w) in
        let r := fresh (dom (heap w)) in
        Some ({| region := Some r; startX := x |},
              appendChild r (with_heap (<[r := reg]> (heap w)) w))
    | _, _ => None
    end.

(** The callback for a move by [dx] that has reached [x]. *)
Definition onDragMove (dx x : Q) (c : Closure) (w : World) : Outcome World :=
  match region c with
  | Some r => _onUpdate dx (Some (if JS.gt x (startX c) then SideEnd else SideStart)) r w
  | None => Returned w
  end.

(** The callback for the end of the drag. *)
Definition onDragEnd (c : Closure) (w : World) : Closure * World :=
  match region c with
  | Some r => ({| region := None; startX := startX c |}, saveRegion r w)
  | None => (c, w)
  end.

(** A sequence of moves, each given as [(dx, x)]. *)
Fixpoint moves (l : list (Q * Q)) (c : Closure) (w : World) : World :=
  match l with
  | [] => w
  | (dx, x) :: l' => moves l' c (outcome_state (onDragMove dx x c w))
  end.

End DragSelection.

(** ** Notch cadence and notch virtualization of the timeline plugin *)

Module Ruler.

(** [defaultTimeInterval(pxPerSec)]: the seconds between two notches;
    [Infinity] for [0.5 / 0].  The products and the quotient of this function
    and of the two that follow are taken without rounding. *)
Definition defaultTimeInterval (pxPerSec : Q) : Bound :=
  if JS.ge pxPerSec 25 then Finite 1
  else if JS.ge (pxPerSec * 5) 25 then Finite 5
  else if JS.ge (pxPerSec * 15) 25 then Finite 15
  else match JS.div 0.5 pxPerSec with
       | Some q => Finite (inject_Z (Qceiling q) * 60)
       | None => Infinity
       end.

(** [defaultPrimaryLabelInterval(pxPerSec)] *)
Definition defaultPrimaryLabelInterval (pxPerSec : Q) : Q :=
  if JS.ge pxPerSec 25 then 10
  else if JS.ge (pxPerSec * 5) 25 then 6
  else if JS.ge (pxPerSec * 15) 25 then 4
  else 4.

(** [defaultSecondaryLabelInterval(pxPerSec)] *)
Definition defaultSecondaryLabelInterval (pxPerSec : Q) : Q :=
  if JS.ge pxPerSec 25 then 5
  else if JS.ge (pxPerSec * 5) 25 then 2
  else if JS.ge (pxPerSec * 15) 25 then 2
  else 2.

(** [virtualAppend(start, container, element)] for a notch [width] pixels
    wide, on a plugin whose host is set: the closure starts with
    [wasVisible = false] and a detached notch, is run at once and then on
    every [scroll] signal, each with its [(scrollLeft, scrollRight)]. *)
Definition fresh_notch : Timeline.Notch :=
  {| Timeline.wasVisible := false; Timeline.attached := false; Timeline.calls := [] |}.

Definition virtualAppend (start width : Q) (bounds : list (Q * Q)) : Timeline.Notch :=
  foldl (fun n '(scrollLeft, scrollRight) =>
           Timeline.renderIfVisible start width scrollLeft scrollRight n)
    fresh_notch bounds.

(** [AppendChild; RemoveElement; AppendChild; ...], [n] calls long. *)
Fixpoint alternation (first : Timeline.DomCall) (n : nat) : list Timeline.DomCall :=
  match n with
  | O => []
  | S n' =>
      first :: alternation
                 (match first with
                  | Timeline.AppendChild => Timeline.RemoveElement
                  | Timeline.RemoveElement => Timeline.AppendChild
                  end) n'
  end.

End Ruler.

(** ** Zoom plugin ([src/dist/plugins/zoom.js]) *)

Module Zoom.

(** The plugin's options; [maxZoom] is [None] while it is [undefined]. *)
Record Options := {
  scale : Q;
  deltaThreshold : Q;
  exponentialZooming : bool;
  iterations : Q;
  maxZoom : option Q;
}.

Definition defaultOptions : Options :=
  {| scale := 0.5; deltaThreshold := 5; exponentialZooming := false;
     iterations := 20; maxZoom := None |}.

(** What the plugin reads of the host and of the DOM: [getDuration()],
    [options.minPxPerSec], the wrapper's [clientWidth] and [scrollWidth],
    [getScroll()], and the left edge and [clientWidth] of the container. *)
Record Host := {
  duration : Q;
  minPxPerSec : Q;
  wrapperClientWidth : Q;
  wrapperScrollWidth : Q;
  scroll : Q;
  rectLeft : Q;
  clientWidth : Q;
}.

(** The two elements the plugin registers listeners on. *)
Inductive Node := Wrapper | Container.

(** The plugin object, and the elements that hold its [wheel] listener. *)
Record ZoomPlugin := {
  options : Options;
  wrapper : bool;
  container : bool;
  accumulatedDelta : Q;
  pointerTime : Q;
  oldX : Q;
  endZoom : Q;
  startZoom : Q;
  wheelListeners : list Node;
}.

(** [new ZoomPlugin(options)] *)
Definition new (o : Options) : ZoomPlugin :=
  {| options := o; wrapper := false; container := false; accumulatedDelta := 0;
     pointerTime := 0; oldX := 0; endZoom := 0; startZoom := 0;
     wheelListeners := [] |}.

Definition with_options (o : Options) (z : ZoomPlugin) : ZoomPlugin :=
  {| options := o; wrapper := wrapper z; container := container z;
     accumulatedDelta := accumulatedDelta z; pointerTime := pointerTime z;
     oldX := oldX z; endZoom := endZoom z; startZoom := startZoom z;
     wheelListeners := wheelListeners z |}.

Definition with_elements (wr co : bool) (z : ZoomPlugin) : ZoomPlugin :=
  {| options := options z; wrapper := wr; container := co;
     accumulatedDelta := accumulatedDelta z; pointerTime := pointerTime z;
     oldX := oldX z; endZoom := endZoom z; startZoom := startZoom z;
     wheelListeners := wheelListeners z |}.

Definition with_endZoom (e : Q) (z : ZoomPlugin) : ZoomPlugin :=
  {| options := options z; wrapper := wrapper z; container := container z;
     accumulatedDelta := accumulatedDelta z; pointerTime := pointerTime z;
     oldX := oldX z; endZoom := e; startZoom := startZoom z;
     wheelListeners := wheelListeners z |}.

Definition with_wheelListeners (l : list Node) (z : ZoomPlugin) : ZoomPlugin :=
  {| options := options z; wrapper := wrapper z; container := container z;
     accumulatedDelta := accumulatedDelta z; pointerTime := pointerTime z;
     oldX := oldX z; endZoom := endZoom z; startZoom := startZoom z;
     wheelListeners := l |}.

Definition with_maxZoom (m : option Q) (o : Options) : Options :=
  {| scale := scale o; deltaThreshold := deltaThreshold o;
     exponentialZooming := exponentialZooming o; iterations := iterations o;
     maxZoom := m |}.

Definition same_node (a b : Node) : bool :=
  match a, b with
  | Wrapper, Wrapper | Container, Container => true
  | _, _ => false
  end.

(** [onInit()]; [h] is [this.wavesurfer], [None] when it is not set.  The
    wrapper of a host always has a parent element. *)
Definition onInit (h : option Host) (z : ZoomPlugin) : ZoomPlugin :=
  match h with
  | None => z
  | Some h =>
      let z := with_elements true true z in
      let z := with_wheelListeners (wheelListeners z ++ [Container]) z in
      let maxZoom :=
        match maxZoom (options z) with
        | None => clientWidth h
        | Some maxZoom => maxZoom
        end in
      let z := with_options (with_maxZoom (Some maxZoom) (options z)) z in
      with_endZoom maxZoom z
  end.

(** [destroy()], up to the call of [super.destroy()]. *)
Definition destroy (z : ZoomPlugin) : ZoomPlugin :=
  if wrapper z
  then with_wheelListeners
         (filter (fun n => negb (same_node n Wrapper)) (wheelListeners z)) z
  else z.

End Zoom.

(** ** Notches of the timeline plugin ([formatTimeCallback], [initTimeline]) *)

Module TimelinePlugin.

(** [a % b] for a divisor other than zero: the remainder has the sign of the
    dividend; on doubles it is computed without rounding. *)
Definition fmod (a b : Q) : Q :=
  let q := a / b in
  a - b * inject_Z (if Qle_bool 0 q then Qfloor q else Qceiling q).

(** The text of a label: [Clock m p s] is the template string
    [`${m}:${p ? '0' : ''}${s}`], and [Seconds r] is [`${r}`]. *)
Inductive Label :=
| Clock (minutes : Z) (padded : bool) (seconds : Q)
| Seconds (rounded : Q).

(** [defaultOptions.formatTimeCallback(seconds)] *)
Definition formatTimeCallback (seconds : Q) : Label :=
  if JS.gt (JS.round (seconds / 60)) 1
  then
    let minutes := Qfloor (JS.round (seconds / 60)) in
    let seconds := JS.Math_round (fmod seconds 60) in
    Clock minutes (JS.lt seconds 10) seconds
  else
    let rounded := JS.round (JS.Math_round (JS.mul seconds 1000) / 1000) in
    Seconds rounded.

(** The options [initTimeline] reads; [None] is [undefined]. *)
Record Options := {
  duration : option Q;
  timeInterval : option Q;
  primaryLabelInterval : option Q;
  primaryLabelSpacing : option Q;
  secondaryLabelInterval : option Q;
  secondaryLabelSpacing : option Q;
}.

Inductive Mode := Primary | Secondary | Tick.

(** A notch as the loop of [initTimeline] makes it: the loop variables [i]
    and [notches], the mode in its [part] attribute, its text and its [left]
    offset in pixels. *)
Record NotchSpec := {
  time : Q;
  index : nat;
  mode : Mode;
  text : option Label;
  offset : Q;
}.

(** [x % interval === 0]; the remainder by zero is [NaN]. *)
Definition divides (x interval : Q) : bool :=
  if JS.eq interval 0 then false else JS.eq (fmod x interval) 0.

(** [spacing && notches % spacing === 0] as a condition. *)
Definition spaced (notches : nat) (spacing : option Q) : bool :=
  match spacing with
  | Some spacing => negb (JS.eq spacing 0) && divides (inject_Z (Z.of_nat notches)) spacing
  | None => false
  end.

(** The body of the loop of [initTimeline]. *)
Definition notch (pxPerSec primaryLabelInterval : Q) (primaryLabelSpacing : option Q)
    (secondaryLabelInterval : Q) (secondaryLabelSpacing : option Q)
    (i : Q) (notches : nat) : NotchSpec :=
  let isPrimary :=
    divides (JS.round (JS.Math_round (JS.mul i 100) / 100)) primaryLabelInterval
    || spaced notches primaryLabelSpacing in
  let isSecondary :=
    divides (JS.round (JS.Math_round (JS.mul i 100) / 100)) secondaryLabelInterval
    || spaced notches secondaryLabelSpacing in
  {| time := i;
     index := notches;
     mode := if isPrimary then Primary else if isSecondary then Secondary else Tick;
     text := if isPrimary || isSecondary then Some (formatTimeCallback i) else None;
     offset := JS.mul i pxPerSec |}.

(** [for (let i = 0, notches = 0; i < duration; i += timeInterval, notches++)]:
    [None] when the loop has not ended after [fuel] rounds.  After a round
    with an infinite interval [i] is [Infinity] and the loop ends.  The loop
    variable advances without rounding, as it does on doubles for the whole
    intervals of [defaultTimeInterval] while it stays below [2 ^ 53]. *)
Fixpoint loop (fuel : nat) (body : Q -> nat -> NotchSpec) (duration : Q)
    (timeInterval : Bound) (i : Q) (notches : nat) : option (list NotchSpec) :=
  if JS.lt i duration
  then
    match fuel with
    | O => None
    | S fuel =>
        match timeInterval with
        | Finite t =>
            option_map (cons (body i notches))
              (loop fuel body duration timeInterval (i + t) (S notches))
        | Infinity => Some [body i notches]
        end
    end
  else Some [].

(** The notches of [initTimeline()].  [host] is [this.wavesurfer] with its
    duration and the [scrollWidth] of its wrapper, [scrollWidth] that of the
    timeline's own wrapper.  With a duration of zero the loop makes no round
    and the quotient [pxPerSec] is not used.  The quotient [pxPerSec] is
    taken without rounding. *)
Definition initTimeline (fuel : nat) (host : option (Q * Q)) (scrollWidth : Q)
    (o : Options) : option (list NotchSpec) :=
  let duration :=
    match host with
    | Some (d, _) => d
    | None => default 0 (duration o)
    end in
  let width :=
    match host with
    | Some (_, w) => JS.or_else w scrollWidth
    | None => scrollWidth
    end in
  match JS.div width duration with
  | None => Some []
  | Some pxPerSec =>
      let timeInterval :=
        match timeInterval o with
        | Some t => Finite t
        | None => Ruler.defaultTimeInterval pxPerSec
        end in
      let primaryLabelInterval :=
        default (Ruler.defaultPrimaryLabelInterval pxPerSec) (primaryLabelInterval o) in
      let secondaryLabelInterval :=
        default (Ruler.defaultSecondaryLabelInterval pxPerSec) (secondaryLabelInterval o) in
      loop fuel
        (notch pxPerSec primaryLabelInterval (primaryLabelSpacing o)
           secondaryLabelInterval (secondaryLabelSpacing o))
        duration timeInterval 0 0
  end.

End TimelinePlugin.

(** The rounds of the loop of [initTimeline] written out: [n] notches, the
    first for the loop variables [i] and [notches]. *)
Fixpoint rounds (body : Q -> nat -> TimelinePlugin.NotchSpec) (t i : Q)
    (notches n : nat) : list TimelinePlugin.NotchSpec :=
  match n with
  | O => []
  | S n => body i notches :: rounds body t (i + t) (S notches) n
  end.



(** The double nearest to a positive number, before reduction to lowest
    terms. *)
Definition round_pos (a : Q) : Q := inject_Z (JS.rne (a / JS.ulp a)) * JS.ulp a.

(** * Properties *)

(** ** Comparisons *)

Lemma JS_le_iff (a b : Q) : JS.le a b = true <-> a <= b.
Proof. apply Qle_bool_iff. Qed.

Lemma JS_ge_iff (a b : Q) : JS.ge a b = true <-> b <= a.
Proof. apply Qle_bool_iff. Qed.

Lemma JS_lt_iff (a b : Q) : JS.lt a b = true <-> a < b.
Proof.
  unfold JS.lt. rewrite negb_true_iff, <- not_true_iff_false, Qle_bool_iff.
  split; [apply Qnot_le_lt | apply Qlt_not_le].
Qed.

Lemma JS_gt_iff (a b : Q) : JS.gt a b = true <-> b < a.
Proof.
  unfold JS.gt. rewrite negb_true_iff, <- not_true_iff_false, Qle_bool_iff.
  split; [apply Qnot_le_lt | apply Qlt_not_le].
Qed.

Lemma JS_eq_iff (a b : Q) : JS.eq a b = true <-> a == b.
Proof. apply Qeq_bool_iff. Qed.

Lemma Math_min_spec (a b : Q) :
  (a <= b /\ JS.Math_min a b = a) \/ (b < a /\ JS.Math_min a b = b).
Proof.
  unfold JS.Math_min. destruct (Qle_bool a b) eqn:E.
  - left. split; [by apply Qle_bool_iff | done].
  - right. split; [| done]. apply Qnot_le_lt. intros H.
    apply Qle_bool_iff in H. congruence.
Qed.

Lemma Math_max_spec (a b : Q) :
  (a <= b /\ JS.Math_max a b = b) \/ (b < a /\ JS.Math_max a b = a).
Proof.
  unfold JS.Math_max. destruct (Qle_bool a b) eqn:E.
  - left. split; [by apply Qle_bool_iff | done].
  - right. split; [| done]. apply Qnot_le_lt. intros H.
    apply Qle_bool_iff in H. congruence.
Qed.

(** [clampPosition] lands in [[0, totalDuration]] when that interval is not
    empty. *)
Lemma clampPosition_range (td t : Q) :
  0 <= td -> 0 <= Region.clampPosition td t /\ Region.clampPosition td t <= td.
Proof.
  intros Htd. unfold Region.clampPosition.
  destruct (Math_min_spec td t) as [[H1 ->] | [H1 ->]];
    destruct (Math_max_spec 0 td) as [[H2 H2'] | [H2 H2']];
    destruct (Math_max_spec 0 t) as [[H3 H3'] | [H3 H3']];
    rewrite ?H2', ?H3'; split; lra.
Qed.

(** With a zero duration every time is clamped to zero. *)
Lemma clampPosition_zero (td t : Q) :
  td == 0 -> Region.clampPosition td t == 0.
Proof.
  intros Htd. unfold Region.clampPosition.
  destruct (Math_min_spec td t) as [[H1 ->] | [H1 ->]].
  - destruct (Math_max_spec 0 td) as [[H2 ->] | [H2 ->]]; lra.
  - destruct (Math_max_spec 0 t) as [[H2 ->] | [H2 ->]]; lra.
Qed.

(** ** Rounding to doubles *)

Lemma rne_floor (x : Q) : (Qfloor x <= JS.rne x <= Qfloor x + 1)%Z.
Proof.
  unfold JS.rne. cbv zeta. destruct (Qcompare _ _); [destruct (Z.even _) | |]; lia.
Qed.

Lemma rne_inject_Z (n : Z) : JS.rne (inject_Z n) = n.
Proof.
  unfold JS.rne. cbv zeta. rewrite Qfloor_Z.
  assert (inject_Z n - inject_Z n < 1 # 2) as H by lra.
  rewrite Qlt_alt in H. by rewrite H.
Qed.

Lemma rne_mono (x y : Q) : x <= y -> (JS.rne x <= JS.rne y)%Z.
Proof.
  intros Hxy. pose proof (Qfloor_resp_le _ _ Hxy) as Hf.
  destruct (Z.eq_dec (Qfloor x) (Qfloor y)) as [Heq | Hne].
  - unfold JS.rne. cbv zeta. rewrite Heq.
    destruct (Qcompare (x - inject_Z (Qfloor y)) (1 # 2)) eqn:Ex;
      destruct (Qcompare (y - inject_Z (Qfloor y)) (1 # 2)) eqn:Ey;
      try (destruct (Z.even (Qfloor y))); try lia; exfalso;
      first [apply Qeq_alt in Ex | apply Qlt_alt in Ex | apply Qgt_alt in Ex];
      first [apply Qeq_alt in Ey | apply Qlt_alt in Ey | apply Qgt_alt in Ey]; lra.
  - pose proof (rne_floor x). pose proof (rne_floor y). lia.
Qed.

Lemma pow2_pos (e : Z) : 0 < 2 ^ e.
Proof. by apply Qpower_0_lt. Qed.

Lemma pow2_succ (e : Z) : 2 ^ (e + 1) == 2 * 2 ^ e.
Proof. rewrite Qpower_plus by done. change (2 ^ 1) with 2. ring. Qed.

Lemma pow2_le (a b : Z) : (a <= b)%Z -> 2 ^ a <= 2 ^ b.
Proof. intros H. by apply Qpower_le_compat_l. Qed.

Lemma pow2_Z (k : Z) : (0 <= k)%Z -> 2 ^ k == inject_Z (2 ^ k).
Proof. intros Hk. by rewrite Zpower_Qpower. Qed.

(** [ilog2 x] is the exponent of the binade of a positive [x]. *)
Lemma ilog2_spec (x : Q) : 0 < x -> 2 ^ JS.ilog2 x <= x /\ x < 2 ^ (JS.ilog2 x + 1).
Proof.
  intros Hx. destruct x as [n d]. unfold JS.ilog2. cbn [Qnum Qden].
  assert (0 < n)%Z as Hn by (unfold Qlt in Hx; cbn in Hx; lia).
  destruct (Z.log2_spec n Hn) as [Hn1 Hn2].
  destruct (Z.log2_spec (Z.pos d) ltac:(lia)) as [Hd1 Hd2].
  pose proof (Z.log2_nonneg n) as Hln. pose proof (Z.log2_nonneg (Z.pos d)) as Hld.
  set (ln := Z.log2 n) in *. set (ld := Z.log2 (Z.pos d)) in *.
  assert (n # d == inject_Z n / inject_Z (Z.pos d)) as Hq by apply Qmake_Qdiv.
  assert (0 < inject_Z (Z.pos d)) as Hdpos
    by (change 0 with (inject_Z 0); rewrite <- Zlt_Qlt; lia).
  assert ((n # d) * inject_Z (Z.pos d) == inject_Z n) as Hmul
    by (rewrite Hq; field; lra).
  rewrite <- Z.add_1_r in Hn2, Hd2.
  rewrite Zle_Qle in Hn1, Hd1. rewrite Zlt_Qlt in Hn2, Hd2.
  rewrite <- !pow2_Z in Hn1, Hn2, Hd1, Hd2 by lia.
  rewrite pow2_succ in Hn2, Hd2.
  pose proof (pow2_pos ln). pose proof (pow2_pos ld).
  assert (2 ^ (ln - ld) * 2 ^ ld == 2 ^ ln) as Hsplit.
  { rewrite <- Qpower_plus by done. by replace (ln - ld + ld)%Z with ln by lia. }
  pose proof (pow2_pos (ln - ld)) as Hp.
  destruct (Qle_bool (2 ^ (ln - ld)) (n # d)) eqn:E.
  - apply Qle_bool_iff in E. split; [done |]. rewrite pow2_succ.
    apply Qnot_le_lt. intros Hc. nra.
  - assert (n # d < 2 ^ (ln - ld)) as Hlt.
    { apply Qnot_le_lt. intros Hc. apply Qle_bool_iff in Hc. congruence. }
    replace (ln - ld - 1 + 1)%Z with (ln - ld)%Z by lia. split; [| done].
    assert (2 * 2 ^ (ln - ld - 1) == 2 ^ (ln - ld)) as Hhalf.
    { rewrite <- pow2_succ. by replace (ln - ld - 1 + 1)%Z with (ln - ld)%Z by lia. }
    pose proof (pow2_pos (ln - ld - 1)).
    apply Qnot_lt_le. intros Hc. nra.
Qed.

Lemma ilog2_mono (x y : Q) : 0 < x -> x <= y -> (JS.ilog2 x <= JS.ilog2 y)%Z.
Proof.
  intros Hx Hxy. destruct (ilog2_spec x Hx) as [Hx1 _].
  destruct (ilog2_spec y ltac:(lra)) as [_ Hy2].
  apply Z.lt_succ_r. rewrite <- Z.add_1_r.
  apply (Qpower_lt_compat_l_inv 2); [lra | done].
Qed.

Lemma ulp_pos (x : Q) : 0 < JS.ulp x.
Proof. apply pow2_pos. Qed.

(** The rounding of a positive number stays in its binade. *)
Lemma round_pos_binade (a : Q) :
  0 < a ->
  let e := Z.max (JS.ilog2 a) (-1022) in
  round_pos a <= 2 ^ (e + 1)
  /\ (e = JS.ilog2 a -> 2 ^ e <= round_pos a).
Proof.
  intros Ha e. destruct (ilog2_spec a Ha) as [H1 H2].
  unfold round_pos, JS.ulp. fold e. set (u := 2 ^ (e - 52)).
  assert (0 < u) as Hu by apply pow2_pos.
  assert (2 ^ (e + 1) == inject_Z (2 ^ 53) * u) as Htop.
  { rewrite <- pow2_Z by lia. unfold u. rewrite <- Qpower_plus by done.
    by replace (53 + (e - 52))%Z with (e + 1)%Z by lia. }
  assert (2 ^ e == inject_Z (2 ^ 52) * u) as Hbot.
  { rewrite <- pow2_Z by lia. unfold u. rewrite <- Qpower_plus by done.
    by replace (52 + (e - 52))%Z with e by lia. }
  assert (a / u * u == a) as Hau by (field; lra).
  split.
  - rewrite Htop. apply Qmult_le_compat_r; [| lra]. rewrite <- Zle_Qle.
    rewrite <- (rne_inject_Z (2 ^ 53)). apply rne_mono.
    apply Qle_shift_div_r; [done |]. rewrite <- Htop.
    assert (2 ^ (JS.ilog2 a + 1) <= 2 ^ (e + 1)) by (apply pow2_le; lia). lra.
  - intros He. rewrite Hbot. apply Qmult_le_compat_r; [| lra]. rewrite <- Zle_Qle.
    rewrite <- (rne_inject_Z (2 ^ 52)). apply rne_mono.
    apply Qle_shift_div_l; [done |]. rewrite <- Hbot, He. done.
Qed.

Lemma round_pos_nonneg (a : Q) : 0 < a -> 0 <= round_pos a.
Proof.
  intros Ha. unfold round_pos. pose proof (ulp_pos a) as Hu.
  apply Qmult_le_0_compat; [| lra]. change 0 with (inject_Z 0). rewrite <- Zle_Qle.
  rewrite <- (rne_inject_Z 0). apply rne_mono. change (inject_Z 0) with 0.
  apply Qle_shift_div_l; lra.
Qed.

Lemma round_pos_mono (a b : Q) : 0 < a -> a <= b -> round_pos a <= round_pos b.
Proof.
  intros Ha Hab. assert (0 < b) as Hb by lra.
  pose proof (ilog2_mono a b Ha Hab) as Hlog.
  set (ea := Z.max (JS.ilog2 a) (-1022)). set (eb := Z.max (JS.ilog2 b) (-1022)).
  destruct (Z.eq_dec ea eb) as [Heq | Hne].
  - unfold round_pos, JS.ulp. fold ea eb. rewrite Heq.
    set (u := 2 ^ (eb - 52)). assert (0 < u) as Hu by apply pow2_pos.
    apply Qmult_le_compat_r; [| lra]. rewrite <- Zle_Qle. apply rne_mono.
    apply Qmult_le_compat_r; [done |]. apply Qinv_le_0_compat. lra.
  - assert (ea < eb)%Z as Hlt by lia. assert (eb = JS.ilog2 b) as Heb by lia.
    destruct (round_pos_binade a Ha) as [Hup _].
    destruct (round_pos_binade b Hb) as [_ Hlow].
    specialize (Hlow Heb). fold ea in Hup. fold eb in Hlow.
    assert (2 ^ (ea + 1) <= 2 ^ eb) by (apply pow2_le; lia). lra.
Qed.

Lemma Qabs_pos_eq (x : Q) : 0 <= x -> Qabs x = x.
Proof.
  destruct x as [n d]. unfold Qle, Qabs. cbn [Qnum Qden]. intros H. f_equal. lia.
Qed.

Lemma Qabs_neg_eq (x : Q) : x <= 0 -> Qabs x = - x.
Proof.
  destruct x as [n d]. unfold Qle, Qabs, Qopp. cbn [Qnum Qden]. intros H. f_equal. lia.
Qed.

Lemma round_unfold (x : Q) :
  JS.round x == (if Qeq_bool x 0 then 0
                 else if Qle_bool 0 x then round_pos (Qabs x) else - round_pos (Qabs x)).
Proof.
  unfold JS.round, round_pos. cbv zeta.
  destruct (Qeq_bool x 0); [done |]. destruct (Qle_bool 0 x); by rewrite Qred_correct.
Qed.

Lemma round_0 : JS.round 0 = 0.
Proof. reflexivity. Qed.

Lemma round_nonneg (x : Q) : 0 <= x -> 0 <= JS.round x.
Proof.
  intros Hx. rewrite round_unfold. destruct (Qeq_bool x 0) eqn:E0; [lra |].
  apply Qle_bool_iff in Hx as Hx'. rewrite Hx'.
  apply round_pos_nonneg. rewrite Qabs_pos_eq by done.
  assert (~ x == 0) by (intros H; apply Qeq_bool_iff in H; congruence). lra.
Qed.

Lemma round_nonpos (x : Q) : x <= 0 -> JS.round x <= 0.
Proof.
  intros Hx. rewrite round_unfold. destruct (Qeq_bool x 0) eqn:E0; [lra |].
  assert (~ x == 0) as Hne by (intros H; apply Qeq_bool_iff in H; congruence).
  assert (Qle_bool 0 x = false) as ->.
  { apply not_true_iff_false. rewrite Qle_bool_iff. lra. }
  assert (0 <= round_pos (Qabs x)); [| lra].
  apply round_pos_nonneg. rewrite Qabs_neg_eq by lra. lra.
Qed.

(** Rounding keeps the order. *)
Lemma round_mono (x y : Q) : x <= y -> JS.round x <= JS.round y.
Proof.
  intros Hxy. destruct (Qlt_le_dec 0 x) as [Hx | Hx].
  - rewrite !round_unfold.
    assert (Qeq_bool x 0 = false) as ->
      by (apply not_true_iff_false; rewrite Qeq_bool_iff; lra).
    assert (Qeq_bool y 0 = false) as ->
      by (apply not_true_iff_false; rewrite Qeq_bool_iff; lra).
    rewrite (proj2 (Qle_bool_iff 0 x)), (proj2 (Qle_bool_iff 0 y)) by lra.
    rewrite !Qabs_pos_eq by lra. by apply round_pos_mono.
  - destruct (Qlt_le_dec y 0) as [Hy | Hy].
    + rewrite !round_unfold.
      assert (Qeq_bool x 0 = false) as ->
        by (apply not_true_iff_false; rewrite Qeq_bool_iff; lra).
      assert (Qeq_bool y 0 = false) as ->
        by (apply not_true_iff_false; rewrite Qeq_bool_iff; lra).
      assert (Qle_bool 0 x = false) as ->
        by (apply not_true_iff_false; rewrite Qle_bool_iff; lra).
      assert (Qle_bool 0 y = false) as ->
        by (apply not_true_iff_false; rewrite Qle_bool_iff; lra).
      rewrite !Qabs_neg_eq by lra.
      assert (round_pos (- y) <= round_pos (- x)); [| lra].
      apply round_pos_mono; lra.
    + pose proof (round_nonpos x Hx). pose proof (round_nonneg y Hy). lra.
Qed.

Lemma sub_nonneg (a b : Q) : a <= b -> 0 <= JS.sub b a.
Proof. intros H. apply round_nonneg. lra. Qed.

Lemma mul_nonneg (a b : Q) : 0 <= a -> 0 <= b -> 0 <= JS.mul a b.
Proof. intros Ha Hb. by apply round_nonneg, Qmult_le_0_compat. Qed.

Lemma div_round_nonneg (a b : Q) : 0 <= a -> 0 < b -> 0 <= JS.round (a / b).
Proof. intros Ha Hb. apply round_nonneg, Qle_shift_div_l; lra. Qed.

(** ** Event delivery *)

Lemma with_listeners_id (x : SingleRegion) : Region.with_listeners (listeners x) x = x.
Proof. by destruct x. Qed.

(** [adjustScroll] writes the scroll container and nothing else. *)
Lemma adjustScroll_frame (r : nat) (w : World) :
  exists sc, adjustScroll r w = with_scrollContainer sc w.
Proof.
  unfold adjustScroll. destruct (negb (wavesurfer w)).
  - exists (scrollContainer w). by destruct w.
  - destruct (scrollContainer w) as [c |] eqn:E.
    + destruct (default (0, 0) (rects w !! r)) as [bl br]. by eexists.
    + exists None. destruct w. cbn in E. by subst.
Qed.

Lemma adjustScroll_heap (r : nat) (w : World) : heap (adjustScroll r w) = heap w.
Proof. by destruct (adjustScroll_frame r w) as [sc ->]. Qed.

(** A listener of the collection manager changes nothing of the region it
    is registered on but the listener list. *)
Lemma run_handler_heap (h : Handler) (e : RegionEvent) (r : nat) (w : World) (x : SingleRegion) :
  heap w !! r = Some x ->
  exists ls, heap (run_handler h e r w) !! r = Some (Region.with_listeners ls x).
Proof.
  intros Hx. destruct h; unfold run_handler.
  - exists (listeners x). rewrite with_listeners_id.
    destruct e as [| | | | [s |] | | |]; try done.
    cbn [heap plugin_emit with_emitted]. by rewrite adjustScroll_heap.
  - exists (listeners x). by rewrite with_listeners_id.
  - exists (listeners x). rewrite with_listeners_id, Hx. by destruct (wavesurfer w).
  - exists (listeners x). by rewrite with_listeners_id.
  - exists (listeners x). by rewrite with_listeners_id.
  - eexists. cbn. rewrite lookup_alter_eq, Hx. reflexivity.
  - eexists. cbn. rewrite lookup_alter_eq, Hx. reflexivity.
Qed.

Lemma run_handler_heap_ne (h : Handler) (e : RegionEvent) (r r' : nat) (w : World) :
  r <> r' -> heap (run_handler h e r w) !! r' = heap w !! r'.
Proof.
  intros Hne. destruct h; cbn -[adjustScroll]; try done.
  - destruct e as [| | | | [s |] | | |]; try done.
    cbn -[adjustScroll]. by rewrite adjustScroll_heap.
  - destruct (heap w !! r); [by destruct (wavesurfer w) | done].
  - by rewrite lookup_alter_ne.
  - by rewrite lookup_alter_ne.
Qed.

Lemma emit_fold_heap (e : RegionEvent) (r : nat) (x : SingleRegion) (hs : list Handler) :
  forall (w : World) (ls : list Handler),
    heap w !! r = Some (Region.with_listeners ls x) ->
    exists ls',
      heap (foldl (deliver e r) w hs) !! r = Some (Region.with_listeners ls' x).
Proof.
  induction hs as [| h hs IH]; intros w ls Hw; cbn [foldl].
  - by exists ls.
  - unfold deliver at 2. destruct (listening h r w).
    + destruct (run_handler_heap h e r w _ Hw) as [ls' Hls']. by apply (IH _ ls').
    + by apply (IH _ ls).
Qed.

(** [emit] adds the event to the region's stream and leaves its geometry,
    flags, element and subscriptions alone. *)
Lemma emit_heap (e : RegionEvent) (r : nat) (w : World) (x : SingleRegion) :
  heap w !! r = Some x ->
  exists ls, heap (emit e r w) !! r = Some (Region.with_listeners ls (Region.record e x)).
Proof.
  intros Hx. unfold emit. rewrite Hx.
  apply (emit_fold_heap e r (Region.record e x) _ _ (listeners x)).
  cbn. rewrite lookup_alter_eq, Hx. by destruct x.
Qed.

Lemma emit_heap_ne (e : RegionEvent) (r r' : nat) (w : World) :
  r <> r' -> heap (emit e r w) !! r' = heap w !! r'.
Proof.
  intros Hne. unfold emit. destruct (heap w !! r) as [x |] eqn:Hx; [| done].
  set (hs := List.filter _ _). clearbody hs.
  transitivity (heap (update_region (Region.record e) r w) !! r').
  - generalize (update_region (Region.record e) r w). induction hs as [| h hs IH]; intros w0.
    + done.
    + cbn [foldl]. rewrite IH. unfold deliver. destruct (listening h r w0); [| done].
      by apply run_handler_heap_ne.
  - cbn. by rewrite lookup_alter_ne.
Qed.

(** ** Drag and resize updates *)

Lemma le_bound_iff (x : Q) (b : Bound) : le_bound x b = true <-> within_max x b.
Proof. destruct b; cbn; [apply JS_le_iff | done]. Qed.

(** The guard of [_onUpdate] is the geometry invariant of the candidate. *)
Lemma accepts_iff (reg : SingleRegion) (c : Q * Q) :
  Region.accepts reg c = true <->
  geometry_invariant (Region.with_bounds (fst c) (snd c) reg).
Proof.
  destruct c as [newStart newEnd]. unfold Region.accepts, geometry_invariant. cbn.
  rewrite !andb_true_iff, JS_ge_iff, !JS_le_iff, JS_ge_iff, le_bound_iff. tauto.
Qed.

Lemma violates_rejected (reg : SingleRegion) (c : Q * Q) :
  violates reg c -> Region.accepts reg c = false.
Proof.
  intros Hv. apply not_true_iff_false. rewrite accepts_iff.
  unfold geometry_invariant, violates in *. cbn.
  intros (H1 & H2 & H3 & H4 & H5).
  destruct Hv as [H | [H | [H | [H | H]]]]; try lra. by apply H.
Qed.

(** [_onUpdate] either changes nothing at all or applies the whole
    candidate, renders it and emits [update]. *)
Lemma _onUpdate_cases (dx : Q) (side : option Side) (r : nat) (w : World) (reg : SingleRegion) :
  heap w !! r = Some reg ->
  outcome_state (_onUpdate dx side r w) = w
  \/ exists el q ls w',
      element reg = Some el /\ includes (children w) r = true /\
      JS.quot dx (rectWidth w) = Some q /\
      Region.accepts reg (Region.candidate (JS.mul q (totalDuration reg)) side reg) = true /\
      _onUpdate dx side r w = Returned w' /\
      heap w' !! r
      = Some (updated side (Region.candidate (JS.mul q (totalDuration reg)) side reg) ls reg).
Proof.
  intros Hreg. unfold _onUpdate. rewrite Hreg.
  destruct (element reg) as [el |] eqn:Hel; [| by left].
  destruct (includes (children w) r) eqn:Hin; cbn [negb]; [| by left].
  destruct (JS.quot dx (rectWidth w)) as [q |] eqn:Hq; [| by left].
  destruct (Region.accepts reg _) eqn:Hacc; [| by left].
  right. unfold lift. rewrite Hreg.
  unfold Region.renderPosition, Region.on_element. cbn [element Region.with_bounds].
  rewrite Hel. cbn [outcome_bind].
  match goal with |- context [emit ?e r ?w0] =>
    destruct (emit_heap e r w0 _ (lookup_insert_eq _ _ _)) as [ls Hls] end.
  exists el, q, ls. eexists. repeat split; try done.
  rewrite Hls. unfold updated, Region.renderPosition, Region.on_element.
  cbn [element Region.with_bounds]. by rewrite Hel.
Qed.


(** ** Geometry of a region *)

Lemma on_element_geometry (f : Element -> Element) (reg : SingleRegion) :
  let reg' := outcome_state (Region.on_element f reg) in
  start reg' = start reg /\ end_ reg' = end_ reg /\
  totalDuration reg' = totalDuration reg /\
  minLength reg' = minLength reg /\ maxLength reg' = maxLength reg.
Proof. unfold Region.on_element. by destruct (element reg). Qed.

Lemma on_element_in_range (f : Element -> Element) (reg : SingleRegion) :
  in_range reg -> in_range (outcome_state (Region.on_element f reg)).
Proof.
  destruct (on_element_geometry f reg) as (Hs & He & Ht & _).
  unfold in_range. by rewrite Hs, He, Ht.
Qed.

Lemma outcome_bind_preserves {A} (P : A -> Prop) (o : Outcome A) (f : A -> Outcome A) :
  P (outcome_state o) -> (forall a, P a -> P (outcome_state (f a))) ->
  P (outcome_state (o >>> f)).
Proof. destruct o; cbn; auto. Qed.

Lemma new_in_range (params : RegionParams) (td : Q) :
  0 <= td -> in_range (Region.new params td).
Proof.
  intros Htd. unfold Region.new. apply on_element_in_range.
  unfold in_range. cbn. split; by apply clampPosition_range.
Qed.

Lemma setOptions_in_range (o : RegionOptions) (reg : SingleRegion) :
  in_range reg -> in_range (outcome_state (Region.setOptions o reg)).
Proof.
  intros Hreg. unfold Region.setOptions.
  repeat apply outcome_bind_preserves; try done.
  - intros a Ha. destruct (o_color o); [| done]. by apply on_element_in_range.
  - intros a Ha. destruct (o_drag o); [| done]. by apply on_element_in_range.
  - intros a Ha.
    assert (0 <= totalDuration a) as Htd by (unfold in_range in Ha; lra).
    assert (forall s e,
      in_range (outcome_state
        (Region.renderPosition
           (Region.with_bounds (Region.clampPosition (totalDuration a) s)
              (Region.clampPosition (totalDuration a) e) a) >>> Region.setPart))) as Hclamp.
    { intros s e. apply outcome_bind_preserves.
      - apply on_element_in_range. unfold in_range. cbn.
        split; by apply clampPosition_range.
      - intros b Hb. by apply on_element_in_range. }
    destruct (o_start o), (o_end o); cbn [default]; try apply Hclamp. done.
  - intros a Ha. destruct (o_id o); [| done]. by apply on_element_in_range.
  - intros a Ha. destruct (o_resize o) as [z |]; [| done].
    destruct (Bool.eqb z (resize a)); [done |].
    destruct (z && negb _); [| by apply on_element_in_range].
    unfold Region.addResizeHandles. apply outcome_bind_preserves; [| done].
    by apply on_element_in_range.
Qed.

Lemma updated_invariant (side : option Side) (c : Q * Q) (ls : list Handler) (reg : SingleRegion) :
  Region.accepts reg c = true -> geometry_invariant (updated side c ls reg).
Proof.
  intros Hacc%accepts_iff. unfold updated, Region.renderPosition.
  destruct (on_element_geometry
              (fun el => {| part := part el;
                            left := Region.leftPercent (Region.with_bounds c.1 c.2 reg);
                            right := Region.rightPercent (Region.with_bounds c.1 c.2 reg);
                            handles := handles el |})
              (Region.with_bounds c.1 c.2 reg)) as (Hs & He & Ht & Hmin & Hmax).
  unfold geometry_invariant in *. cbn [start end_ totalDuration minLength maxLength
    Region.with_listeners Region.record Region.with_trace].
  by rewrite Hs, He, Ht, Hmin, Hmax.
Qed.

(** One update: the region is untouched, or it satisfies the invariant and
    has emitted one [update]. *)
Lemma _onUpdate_step (dx : Q) (side : option Side) (r : nat) (w : World) (reg : SingleRegion) :
  heap w !! r = Some reg ->
  exists reg', heap (outcome_state (_onUpdate dx side r w)) !! r = Some reg' /\
    (reg' = reg \/
     (geometry_invariant reg' /\ trace reg' = trace reg ++ [EUpdate side])).
Proof.
  intros Hreg. destruct (_onUpdate_cases dx side r w reg Hreg)
    as [-> | (el & q & ls & w' & Hel & Hin & Hq & Hacc & -> & Hw')].
  - exists reg. by split; [| left].
  - eexists. split; [exact Hw' |]. right. split; [by apply updated_invariant |].
    unfold updated, Region.renderPosition, Region.on_element.
    cbn [element Region.with_bounds]. by rewrite Hel.
Qed.

Lemma updates_invariant (l : list (Q * option Side)) (r : nat) :
  forall (w : World) (reg : SingleRegion),
    heap w !! r = Some reg -> geometry_invariant reg ->
    exists reg', heap (updates l r w) !! r = Some reg' /\ geometry_invariant reg'.
Proof.
  induction l as [| [dx side] l IH]; intros w reg Hreg Hinv; cbn [updates].
  - by exists reg.
  - destruct (_onUpdate_step dx side r w reg Hreg) as (reg' & Hreg' & [-> | [Hinv' _]]);
      by eapply IH.
Qed.

(** C1 (as stated, refuted): the constructor clamps [start] and [end] one by
    one and checks neither their order nor the length bounds:
    [{start: 3, end: 1}] on a track of 10 seconds gives a region with
    [start = 3 > end = 1]. *)
Lemma C1_constructed_region_breaks_invariant :
  ~ geometry_invariant (Region.new (Examples.params 3 (Some 1)) 10).
Proof. intros (_ & H & _). vm_compute in H. by apply H. Qed.

(** C1 (amended): after construction and after any [setOptions] call, [start]
    and [end] each lie in [[0, totalDuration]]; a drag or resize update leaves
    the region untouched or leaves it satisfying the whole geometry invariant
    ([0 <= start <= end <= totalDuration] and
    [minLength <= end - start <= maxLength], the difference [end - start]
    being the double the program computes) with one [update] emitted; hence
    a region that satisfies the invariant keeps it under every sequence of
    updates. *)
Theorem C1_geometry_amended :
  (forall (params : RegionParams) (td : Q),
      0 <= td -> in_range (Region.new params td))
  /\ (forall (o : RegionOptions) (reg : SingleRegion),
      in_range reg -> in_range (outcome_state (Region.setOptions o reg)))
  /\ (forall (dx : Q) (side : option Side) (r : nat) (w : World) (reg : SingleRegion),
      heap w !! r = Some reg ->
      exists reg', heap (outcome_state (_onUpdate dx side r w)) !! r = Some reg' /\
        (reg' = reg \/
         (geometry_invariant reg' /\ trace reg' = trace reg ++ [EUpdate side])))
  /\ (forall (l : list (Q * option Side)) (r : nat) (w : World) (reg : SingleRegion),
      heap w !! r = Some reg -> geometry_invariant reg ->
      exists reg', heap (updates l r w) !! r = Some reg' /\ geometry_invariant reg').
Proof.
  split; [exact new_in_range |]. split; [exact setOptions_in_range |].
  split; [exact _onUpdate_step |]. intros l r w reg. apply updates_invariant.
Qed.

Lemma C1_geometry_amended_witness :
  in_range (Region.new (Examples.params 3 (Some 1)) 10)
  /\ in_range (outcome_state
                 (Region.setOptions
                    {| o_color := false; o_drag := None; o_start := Some 12;
                       o_end := None; o_id := false;
                       o_resize := None |}
                    (Region.new (Examples.params 2 (Some 4)) 10)))
  /\ (exists reg',
        heap (outcome_state (_onUpdate 10 None 0%nat Examples.shown_2_4)) !! 0%nat = Some reg'
        /\ geometry_invariant reg')
  /\ (exists reg',
        heap (updates [(10, None); (-50, Some SideStart)] 0%nat Examples.shown_2_4) !! 0%nat
        = Some reg'
        /\ geometry_invariant reg').
Proof.
  destruct C1_geometry_amended as (Hnew & Hset & Hstep & Hseq).
  assert (0 <= 10) as H10 by (vm_compute; discriminate).
  destruct (heap Examples.shown_2_4 !! 0%nat) as [reg |] eqn:Hreg;
    [| vm_compute in Hreg; discriminate].
  assert (geometry_invariant reg) as Hinv.
  { vm_compute in Hreg. injection Hreg as <-.
    unfold geometry_invariant. cbn. repeat split; vm_compute; discriminate. }
  split; [by apply Hnew |]. split; [by apply Hset, Hnew |]. split.
  - destruct (Hstep 10 None 0%nat Examples.shown_2_4 reg Hreg) as (reg' & Hreg' & Hcase).
    exists reg'. split; [done |]. by destruct Hcase as [-> | [H _]].
  - by apply (Hseq _ _ _ reg).
Defined.

(** The length that the guard of [_onUpdate] bounds is the double it
    computes.  The region [[0, 5]] with [maxLength = 5] on a track of 10
    seconds whose container is 7 pixels wide is moved by one pixel: the
    update is accepted, the difference of the stored doubles is 5 as the
    program computes it, and exceeds 5 as a number. *)
Lemma C1_guarded_length_is_the_computed_one :
  let w := tick (Examples.added
                   {| p_start := 0; p_end := Some 5; p_drag := None; p_resize := None;
                      p_minLength := None; p_maxLength := Some (Finite 5) |}
                   (init 10 0 100 7 100)) in
  exists reg',
    heap (outcome_state (_onUpdate 1 None 0%nat w)) !! 0%nat = Some reg'
    /\ trace reg' = [EUpdate None]
    /\ geometry_invariant reg'
    /\ JS.sub (end_ reg') (start reg') == 5
    /\ 5 < end_ reg' - start reg'.
Proof.
  cbn zeta. eexists. split; [by vm_compute |]. split; [by vm_compute |].
  split; [| split; by vm_compute].
  unfold geometry_invariant. cbn. repeat split; vm_compute; discriminate.
Qed.

Lemma candidate_unfold (d : Q) (side : option Side) (reg : SingleRegion) :
  Region.candidate d side reg
  = (match side with Some SideEnd => start reg | _ => JS.add (start reg) d end,
     match side with Some SideStart => end_ reg | _ => JS.add (end_ reg) d end).
Proof. by destruct side as [[] |]. Qed.

Lemma quot_Some (a b q : Q) : JS.quot a b = Some q -> q = JS.round (a / b).
Proof. unfold JS.quot. destruct (Qeq_bool b 0); congruence. Qed.

Lemma quot_nonzero (a b : Q) : ~ b == 0 -> JS.quot a b = Some (JS.round (a / b)).
Proof.
  intros Hb. unfold JS.quot. destruct (Qeq_bool b 0) eqn:E; [| done].
  by apply Qeq_bool_iff in E.
Qed.

Lemma div_Some (a b q : Q) : JS.div a b = Some q -> q = a / b.
Proof. unfold JS.div. destruct (Qeq_bool b 0); congruence. Qed.

Lemma div_nonzero (a b : Q) : ~ b == 0 -> JS.div a b = Some (a / b).
Proof.
  intros Hb. unfold JS.div. destruct (Qeq_bool b 0) eqn:E; [| done].
  by apply Qeq_bool_iff in E.
Qed.

(** C2: an update whose candidate bounds break a bound ([newStart < 0],
    [newEnd > totalDuration], [newStart > newEnd], or a length outside
    [[minLength, maxLength]]) changes nothing: the whole state after the call
    is the state before it, so [start] and [end] are what they were, nothing
    is applied in part or clamped, and neither the region nor the plugin has
    emitted anything.  The candidate and its length are the doubles the
    program computes: the quotient, the product, the sums and the difference
    are each rounded. *)
Theorem C2_violating_update_rejected
    (dx : Q) (side : option Side) (r : nat) (w : World) (reg : SingleRegion) :
  heap w !! r = Some reg ->
  let deltaSeconds := JS.mul (JS.round (dx / rectWidth w)) (totalDuration reg) in
  let newStart :=
    match side with Some SideEnd => start reg | _ => JS.add (start reg) deltaSeconds end in
  let newEnd :=
    match side with Some SideStart => end_ reg | _ => JS.add (end_ reg) deltaSeconds end in
  let length := JS.sub newEnd newStart in
  (newStart < 0 \/ totalDuration reg < newEnd \/ newEnd < newStart \/
   length < minLength reg \/ ~ within_max length (maxLength reg)) ->
  outcome_state (_onUpdate dx side r w) = w.
Proof.
  intros Hreg deltaSeconds newStart newEnd length Hv.
  destruct (_onUpdate_cases dx side r w reg Hreg)
    as [H | (el & q & ls & w' & _ & _ & Hq & Hacc & _)]; [done |].
  apply quot_Some in Hq. subst q.
  rewrite violates_rejected in Hacc; [done |].
  unfold violates. by rewrite candidate_unfold.
Qed.

Lemma C2_violating_update_rejected_witness :
  outcome_state (_onUpdate (-30) None 0%nat Examples.shown_2_4) = Examples.shown_2_4.
Proof.
  destruct (heap Examples.shown_2_4 !! 0%nat) as [reg |] eqn:Hreg;
    [| vm_compute in Hreg; discriminate].
  apply (C2_violating_update_rejected (-30) None 0%nat Examples.shown_2_4 reg Hreg).
  left. vm_compute in Hreg. injection Hreg as <-. vm_compute. reflexivity.
Defined.

Lemma _onUpdate_accepted
    (dx : Q) (side : option Side) (r : nat) (w : World) (reg : SingleRegion) (el : Element) :
  heap w !! r = Some reg -> element reg = Some el ->
  includes (children w) r = true -> ~ rectWidth w == 0 ->
  let deltaSeconds := JS.mul (JS.round (dx / rectWidth w)) (totalDuration reg) in
  Region.accepts reg (Region.candidate deltaSeconds side reg) = true ->
  exists ls w',
    _onUpdate dx side r w = Returned w' /\
    heap w' !! r = Some (updated side (Region.candidate deltaSeconds side reg) ls reg).
Proof.
  intros Hreg Hel Hin Hw deltaSeconds Hacc. subst deltaSeconds.
  destruct (_onUpdate_cases dx side r w reg Hreg)
    as [H | (el' & q & ls & w' & _ & _ & Hq & _ & Hret & Hw')].
  - exfalso. revert H. unfold _onUpdate.
    rewrite Hreg, Hel, Hin, (quot_nonzero _ _ Hw), Hacc. cbn [negb].
    unfold lift. rewrite Hreg.
    unfold Region.renderPosition, Region.on_element. cbn [element Region.with_bounds].
    rewrite Hel. cbn [outcome_bind outcome_state]. intros H.
    match type of H with emit ?e r ?w0 = _ =>
      destruct (emit_heap e r w0 _ (lookup_insert_eq _ _ _)) as [ls Hls] end.
    rewrite H, Hreg in Hls. injection Hls as Hls.
    apply (f_equal (fun x => length (trace x))) in Hls.
    cbn in Hls. rewrite length_app in Hls. cbn in Hls. lia.
  - apply quot_Some in Hq. subst q. by exists ls, w'.
Qed.

(** C3: when the parent is rendered [w > 0] pixels wide, [_onUpdate(dx, side)]
    works with [deltaSeconds = (dx / w) * totalDuration]; without [side] both
    bounds shift by it, with [side] only that bound does; and when the guard
    accepts the candidate the call returns with the candidate as the region's
    bounds, [style.left] and [style.right] rendered from them, and one
    [update] carrying [side] emitted.  Quotient, product, sums and difference
    are the doubles the program computes, each operation rounded; the guard
    is stated on them. *)
Theorem C3_update_delta_and_sides
    (dx : Q) (side : option Side) (r : nat) (w : World) (reg : SingleRegion) (el : Element) :
  heap w !! r = Some reg -> element reg = Some el ->
  includes (children w) r = true -> 0 < rectWidth w ->
  let deltaSeconds := JS.mul (JS.round (dx / rectWidth w)) (totalDuration reg) in
  let newStart :=
    match side with Some SideEnd => start reg | _ => JS.add (start reg) deltaSeconds end in
  let newEnd :=
    match side with Some SideStart => end_ reg | _ => JS.add (end_ reg) deltaSeconds end in
  let length := JS.sub newEnd newStart in
  0 <= newStart -> newEnd <= totalDuration reg -> newStart <= newEnd ->
  minLength reg <= length -> within_max length (maxLength reg) ->
  exists w' reg',
    _onUpdate dx side r w = Returned w' /\ heap w' !! r = Some reg' /\
    start reg' = newStart /\ end_ reg' = newEnd /\
    element reg'
    = Some {| part := part el;
              left := (fun x => JS.mul x 100) <$> JS.quot newStart (totalDuration reg);
              right := (fun x => JS.mul x 100)
                       <$> JS.quot (JS.sub (totalDuration reg) newEnd) (totalDuration reg);
              handles := handles el |} /\
    trace reg' = trace reg ++ [EUpdate side].
Proof.
  intros Hreg Hel Hin Hw deltaSeconds newStart newEnd length H1 H2 H3 H4 H5.
  assert (Region.candidate deltaSeconds side reg = (newStart, newEnd)) as Hc
    by apply candidate_unfold.
  destruct (_onUpdate_accepted dx side r w reg el Hreg Hel Hin) as (ls & w' & Hret & Hw').
  - lra.
  - fold deltaSeconds. rewrite Hc. apply accepts_iff. unfold geometry_invariant. by cbn.
  - fold deltaSeconds in Hw'. rewrite Hc in Hw'.
    exists w'. eexists. split; [done |]. split; [exact Hw' |].
    unfold updated, Region.renderPosition, Region.on_element.
    cbn [element Region.with_bounds fst snd]. rewrite Hel. by cbn.
Qed.

Lemma C3_update_delta_and_sides_witness :
  exists w' reg',
    _onUpdate 10 (Some SideEnd) 0%nat Examples.shown_2_4 = Returned w' /\
    heap w' !! 0%nat = Some reg' /\ start reg' == 2 /\ end_ reg' == 5 /\
    trace reg' = [EUpdate (Some SideEnd)].
Proof.
  destruct (heap Examples.shown_2_4 !! 0%nat) as [reg |] eqn:Hreg;
    [| vm_compute in Hreg; discriminate].
  destruct (element reg) as [el |] eqn:Hel;
    [| vm_compute in Hreg; injection Hreg as <-; discriminate].
  destruct (C3_update_delta_and_sides 10 (Some SideEnd) 0%nat Examples.shown_2_4 reg el Hreg Hel)
    as (w' & reg' & Hret & Hreg' & Hs & He & _ & Ht);
    [vm_compute in Hreg; injection Hreg as <-; vm_compute;
     (reflexivity || discriminate) .. |].
  exists w', reg'. split; [exact Hret |]. split; [exact Hreg' |].
  rewrite Hs, He, Ht. clear Hret Hreg' Hs He Ht.
  vm_compute in Hreg. injection Hreg as <-. by vm_compute.
Defined.

(** The guard sees the doubles.  On a track of 25 seconds shown 25 pixels
    wide, the region [[14, 16]] dragged by -14 pixels has the candidate
    [newStart = 14 + (-14 / 25) * 25], a negative double: the update is
    rejected although the candidate is [(0, 2)] in exact arithmetic. *)
Lemma _onUpdate_rejects_on_doubles :
  let w := tick (Examples.added (Examples.params 14 (Some 16)) (init 25 0 100 25 100)) in
  JS.add 14 (JS.mul (JS.round (-14 / 25)) 25) < 0
  /\ outcome_state (_onUpdate (-14) None 0%nat w) = w.
Proof. cbn zeta. split; by vm_compute. Qed.

(** Conversely, on a track of one second shown 3 pixels wide, the region
    [[0.6666666666666666, 0.8]] dragged by -2 pixels has a candidate whose
    [newStart] is negative in exact arithmetic and the double 0: the update
    is accepted and [start] becomes 0. *)
Lemma _onUpdate_accepts_on_doubles :
  let s := JS.lit 0.6666666666666666 in
  let w := tick (Examples.added (Examples.params s (Some (JS.lit 0.8)))
                   (init 1 0 100 3 100)) in
  s + -2 / 3 * 1 < 0
  /\ exists reg',
      heap (outcome_state (_onUpdate (-2) None 0%nat w)) !! 0%nat = Some reg'
      /\ start reg' = 0 /\ trace reg' = [EUpdate None].
Proof.
  cbn zeta. split; [by vm_compute |]. eexists. split; [by vm_compute |].
  split; by vm_compute.
Qed.

(** ** Playback tracking *)

Lemma includes_iff (l : list nat) (r : nat) : includes l r = true <-> In r l.
Proof.
  unfold includes. rewrite existsb_exists. split.
  - intros (x & Hx & Heq). apply Nat.eqb_eq in Heq. by subst.
  - intros H. exists r. split; [done |]. apply Nat.eqb_refl.
Qed.

Lemma with_emitted_id (w : World) : with_emitted (emitted w) w = w.
Proof. by destruct w. Qed.

Lemma forEach_emit (f : nat -> bool) (ev : nat -> PluginEvent) (l : list nat) :
  forall w : World,
    foldl (fun w r => if f r then plugin_emit (ev r) w else w) w l
    = with_emitted (emitted w ++ (ev <$> List.filter f l)) w.
Proof.
  induction l as [| r l IH]; intros w; cbn [foldl List.filter].
  - cbn. by rewrite app_nil_r, with_emitted_id.
  - rewrite IH. destruct (f r); [| done].
    unfold plugin_emit, with_emitted. cbn. by rewrite <- app_assoc.
Qed.

(** The [timeupdate] listener in closed form. *)
Lemma on_timeupdate_eq (t : Q) (w : World) :
  on_timeupdate t w
  = with_activeRegions (playedRegions t w)
      (with_emitted (emitted w ++ transitions (activeRegions w) (playedRegions t w)) w).
Proof.
  unfold on_timeupdate, transitions.
  rewrite (forEach_emit (fun r => negb (includes (activeRegions w) r)) RegionIn).
  rewrite (forEach_emit (fun r => negb (includes (playedRegions t w) r)) RegionOut).
  unfold with_emitted. cbn. by rewrite <- app_assoc.
Qed.

Lemma occurrences_app {A} `{EqDecision A} (x : A) (l1 l2 : list A) :
  occurrences x (l1 ++ l2) = (occurrences x l1 + occurrences x l2)%nat.
Proof. unfold occurrences. by rewrite List.filter_app, length_app. Qed.

Lemma occurrences_fmap_inj {A B} `{EqDecision A, EqDecision B} (f : A -> B) (x : A) (l : list A) :
  (forall a b, f a = f b -> a = b) ->
  occurrences (f x) (f <$> l) = occurrences x l.
Proof.
  intros Hinj. unfold occurrences. induction l as [| a l IH]; [done |].
  cbn. destruct (decide (a = x)) as [-> | Hne].
  - rewrite !bool_decide_eq_true_2 by done. cbn. by f_equal.
  - rewrite !bool_decide_eq_false_2; [done | done |]. intros Heq. by apply Hne, Hinj.
Qed.

Lemma occurrences_fmap_none {A B} `{EqDecision B} (f : A -> B) (y : B) (l : list A) :
  (forall a, f a <> y) -> occurrences y (f <$> l) = 0%nat.
Proof.
  intros Hne. unfold occurrences. induction l as [| a l IH]; [done |].
  cbn. by rewrite bool_decide_eq_false_2.
Qed.

Lemma occurrences_filter (f : nat -> bool) (r : nat) (l : list nat) :
  occurrences r (List.filter f l) = if f r then occurrences r l else 0%nat.
Proof.
  unfold occurrences. induction l as [| a l IH]; [by destruct (f r) |].
  cbn. destruct (f a) eqn:Ha; cbn; destruct (decide (a = r)) as [-> | Hne].
  - rewrite Ha in *. rewrite !bool_decide_eq_true_2 by done. cbn. by f_equal.
  - by rewrite !bool_decide_eq_false_2.
  - rewrite Ha in *. done.
  - by rewrite !bool_decide_eq_false_2.
Qed.

Lemma transitions_in (old new : list nat) (r : nat) :
  occurrences (RegionIn r) (transitions old new)
  = if includes old r then 0%nat else occurrences r new.
Proof.
  unfold transitions. rewrite occurrences_app.
  rewrite (occurrences_fmap_inj RegionIn) by congruence.
  rewrite (occurrences_fmap_none RegionOut) by done.
  rewrite occurrences_filter. destruct (includes old r); cbn; lia.
Qed.

Lemma transitions_out (old new : list nat) (r : nat) :
  occurrences (RegionOut r) (transitions old new)
  = if includes new r then 0%nat else occurrences r old.
Proof.
  unfold transitions. rewrite occurrences_app.
  rewrite (occurrences_fmap_none RegionIn) by done.
  rewrite (occurrences_fmap_inj RegionOut) by congruence.
  rewrite occurrences_filter. by destruct (includes new r).
Qed.




Lemma isPlayed_iff (t : Q) (reg : SingleRegion) :
  isPlayed t reg = true <->
  (start reg < end_ reg /\ start reg <= t /\ t <= end_ reg)
  \/ (start reg == end_ reg /\ start reg <= t
      /\ t <= JS.add (start reg) (JS.lit 0.05)).
Proof.
  unfold isPlayed. rewrite andb_true_iff, JS_le_iff, JS_ge_iff.
  destruct (JS.eq (end_ reg) (start reg)) eqn:E.
  - apply JS_eq_iff in E. split.
    + intros [H1 H2]. right. repeat split; [by symmetry | done | done].
    + intros [(H1 & H2 & H3) | (H1 & H2 & H3)]; [lra | done].
  - assert (~ end_ reg == start reg) as Hne
      by (intros H; apply JS_eq_iff in H; congruence).
    split.
    + intros [H1 H2]. left. repeat split; try done.
      destruct (Qlt_le_dec (start reg) (end_ reg)) as [Hlt | Hle]; [done |].
      exfalso. apply Hne. lra.
    + intros [(H1 & H2 & H3) | (H1 & H2 & H3)]; [done |].
      exfalso. apply Hne. by symmetry.
Qed.

Lemma activeRegions_on_timeupdate (t : Q) (w : World) :
  activeRegions (on_timeupdate t w) = playedRegions t w.
Proof. by rewrite on_timeupdate_eq. Qed.

(** C5: after a [timeupdate] at time [t], a region is in the active set
    exactly when it is in the collection and [start <= t <= end] with
    [end > start], or it is a marker ([start === end]) and
    [start <= t <= start + 0.05], the sum being the double the program
    computes from [start] and the literal [0.05]; a marker at 5 is active at
    5.03 and not at 5.06. *)
Theorem C5_active_set_membership :
  (forall (t : Q) (r : nat) (w : World) (reg : SingleRegion),
      heap w !! r = Some reg ->
      In r (activeRegions (on_timeupdate t w)) <->
      In r (regions_of w) /\
      ((start reg < end_ reg /\ start reg <= t /\ t <= end_ reg)
       \/ (start reg == end_ reg /\ start reg <= t
           /\ t <= JS.add (start reg) (JS.lit 0.05))))
  /\ (let w := Examples.added (Examples.params 5 None) Examples.host10 in
      activeRegions (on_timeupdate (JS.lit 5.03) w) = [0%nat] /\
      activeRegions (on_timeupdate (JS.lit 5.06) w) = []).
Proof.
  split.
  - intros t r w reg Hreg. rewrite activeRegions_on_timeupdate.
    unfold playedRegions. rewrite List.filter_In, Hreg. by rewrite isPlayed_iff.
  - by vm_compute.
Qed.

Lemma C5_active_set_membership_witness :
  In 0%nat (activeRegions (on_timeupdate 3 Examples.shown_2_4)).
Proof.
  destruct C5_active_set_membership as [Hiff _].
  destruct (heap Examples.shown_2_4 !! 0%nat) as [reg |] eqn:Hreg;
    [| vm_compute in Hreg; discriminate].
  apply (Hiff 3 0%nat Examples.shown_2_4 reg Hreg).
  vm_compute in Hreg. injection Hreg as <-.
  split; [vm_compute; by left |]. left. by vm_compute.
Defined.

(** The window of a marker ends at the double [start + 0.05]: a marker at
    0.1 is played at 0.15000000000000002, which is that double and exceeds
    the exact sum; a marker at 4.35 is not played at 4.4, the double sum
    being 4.3999999999999995. *)
Lemma isPlayed_marker_window_on_doubles :
  isPlayed (JS.lit 0.15000000000000002) (Region.new (Examples.params (JS.lit 0.1) None) 10)
  = true
  /\ JS.lit 0.1 + 0.05 < JS.lit 0.15000000000000002
  /\ isPlayed (JS.lit 4.4) (Region.new (Examples.params (JS.lit 4.35) None) 10) = false.
Proof. split; [| split]; by vm_compute. Qed.

(** ** Virtualization *)

Lemma includes_without (r x : nat) (l : list nat) :
  includes (without r l) x = negb (Nat.eqb x r) && includes l x.
Proof.
  apply eq_true_iff_eq. rewrite andb_true_iff, negb_true_iff, !includes_iff.
  unfold without. rewrite List.filter_In, negb_true_iff. tauto.
Qed.

Lemma includes_app (l1 l2 : list nat) (x : nat) :
  includes (l1 ++ l2) x = includes l1 x || includes l2 x.
Proof. unfold includes. apply existsb_app. Qed.

(** After a recomputation the element is a child of the container exactly
    when the region was found visible. *)
Lemma renderIfVisible_attached (r : nat) (w : World) (reg : SingleRegion) :
  wavesurfer w = true -> heap w !! r = Some reg ->
  includes (children (renderIfVisible r w)) r = isVisible reg w.
Proof.
  intros Hws Hreg. unfold renderIfVisible. rewrite Hws, Hreg. cbn [negb].
  destruct (isVisible reg w); cbn [children appendChild removeChild with_children
    with_mutations].
  - rewrite includes_app. cbn. rewrite Nat.eqb_refl. apply orb_true_r.
  - by rewrite includes_without, Nat.eqb_refl.
Qed.

(** [isVisible] is the intersection of the pixel interval with the visible
    window, when neither is empty. *)
Lemma isVisible_intersects (reg : SingleRegion) (w : World) (startPx widthPx : Q) :
  pixels reg w = Some (startPx, widthPx) -> 0 < widthPx -> 0 < width w ->
  isVisible reg w = true <->
  exists x, (startPx <= x /\ x < startPx + widthPx)
            /\ (scroll w <= x /\ x < scroll w + width w).
Proof.
  intros Hpx Hw Hc. unfold isVisible. rewrite Hpx, andb_true_iff, JS_gt_iff, JS_lt_iff.
  split.
  - intros [H1 H2]. destruct (Qlt_le_dec startPx (scroll w)).
    + exists (scroll w). lra.
    + exists startPx. lra.
  - intros (x & [H1 H2] & [H3 H4]). lra.
Qed.

(** The notch virtualization of the timeline remembers the last outcome:
    recomputing with the same scroll bounds makes no DOM call. *)
Lemma Timeline_renderIfVisible_idempotent (start width scrollLeft scrollRight : Q)
    (n : Timeline.Notch) :
  let n' := Timeline.renderIfVisible start width scrollLeft scrollRight n in
  Timeline.renderIfVisible start width scrollLeft scrollRight n' = n'.
Proof.
  unfold Timeline.renderIfVisible.
  destruct (JS.gt start scrollLeft && JS.lt (start + width) scrollRight) eqn:E,
    (Timeline.wasVisible n) eqn:E'; cbn; by rewrite ?E, ?E'.
Qed.

(** C7 (the code at the failing input): the region [[2, 4]] is shown and the
    host signals [scroll] with the offset it already has.  The region is
    visible before and after, yet [renderIfVisible] calls [appendChild]
    again: the element is detached and attached once more.  With two shown
    regions, recomputing the first one moves its element behind the other. *)
Theorem C7_recomputation_reattaches :
  let w := Examples.shown_2_4 in
  let w' := on_scroll (scroll w) w in
  (fun reg => isVisible reg w) <$> heap w !! 0%nat = Some true
  /\ (fun reg => isVisible reg w') <$> heap w' !! 0%nat = Some true
  /\ includes (children w) 0%nat = true
  /\ includes (children w') 0%nat = true
  /\ mutations w' = mutations w ++ [Detached 0; Attached 0]
  /\ children Examples.shown_two = [0%nat; 1%nat]
  /\ children (renderIfVisible 0%nat Examples.shown_two) = [1%nat; 0%nat].
Proof. by vm_compute. Qed.

(** ** The array of [getRegions] *)

(** C9 (as stated, refuted): [getRegions()] hands out the array the plugin
    itself works on.  Emptying the returned array empties the collection, and
    the next [timeupdate] inside the region [[2, 4]] emits no [region-in],
    which it does when the array is left alone. *)
Lemma C9_mutation_reaches_collection :
  let w := Examples.shown_2_4 in
  let w' := array_mutate (getRegions w) (fun _ => []) w in
  regions_of w = [0%nat] /\ regions_of w' = []
  /\ emitted (on_timeupdate 3 w) = emitted w ++ [RegionIn 0]
  /\ emitted (on_timeupdate 3 w') = emitted w.
Proof. by vm_compute. Qed.

(** C9 (amended): the structure returned by [getRegions()] is the plugin's
    own collection array: an in-place mutation [f] of it is a mutation of the
    collection, which then holds [f] of its former contents and is what
    playback tracking reads; the region objects are not affected. *)
Theorem C9_getRegions_aliases_collection (f : list nat -> list nat) (w : World) :
  let w' := array_mutate (getRegions w) f w in
  regions_of w' = f (regions_of w)
  /\ heap w' = heap w
  /\ forall t, activeRegions (on_timeupdate t w')
               = List.filter (fun r => match heap w !! r with
                                       | Some reg => isPlayed t reg
                                       | None => false
                                       end) (f (regions_of w)).
Proof.
  assert (regions_of (array_mutate (getRegions w) f w) = f (regions_of w)) as Hreg.
  { unfold regions_of, array_mutate, getRegions, array_at. cbn.
    by rewrite lookup_insert_eq. }
  split; [done |]. split; [done |]. intros t.
  rewrite activeRegions_on_timeupdate. unfold playedRegions. by rewrite Hreg.
Qed.

(** ** Removal *)

Lemma listening_eq (h : Handler) (r : nat) (w : World) (reg : SingleRegion) :
  heap w !! r = Some reg -> listening h r w = bool_decide (h ∈ listeners reg).
Proof. intros Hreg. unfold listening. by rewrite Hreg. Qed.

Lemma deliver_eq (e : RegionEvent) (h : Handler) (r : nat) (w : World) (reg : SingleRegion) :
  heap w !! r = Some reg ->
  deliver e r w h = if bool_decide (h ∈ listeners reg) then run_handler h e r w else w.
Proof. intros Hreg. unfold deliver. by rewrite (listening_eq _ _ _ _ Hreg). Qed.

(** The listeners of a persisted region, sorted out for [remove]. *)
Lemma remove_listeners_of (vr : list Handler) :
  vr = [] \/ vr = [VirtualRemove] ->
  List.filter (fun h => bool_decide (handler_event h = NRemove)) (regionSubscriptions ++ vr)
  = SavedRemove :: vr
  /\ bool_decide (SavedRemove ∈ regionSubscriptions ++ vr) = true
  /\ List.filter (fun h => negb (is_saved h)) (regionSubscriptions ++ vr) = vr
  /\ List.filter (fun h => is_saved h) vr = [].
Proof. intros [-> | ->]; by vm_compute. Qed.

(** An event of a region nobody listens to stays in the region's stream. *)
Lemma emit_unheard (e : RegionEvent) (r : nat) (w : World) (reg : SingleRegion) :
  heap w !! r = Some reg -> listeners reg = [] ->
  emit e r w = update_region (Region.record e) r w.
Proof. intros Hreg Hls. unfold emit. by rewrite Hreg, Hls. Qed.

(** [emit('remove')] on a persisted region: the listener of [saveRegion]
    drops the region from the collection and announces it, and no listener
    of the plugin is left on the region. *)
Lemma emit_remove_persisted (r : nat) (w : World) (reg : SingleRegion) (vr : list Handler) :
  heap w !! r = Some reg -> vr = [] \/ vr = [VirtualRemove] ->
  listeners reg = regionSubscriptions ++ vr ->
  let w' := emit ERemove r w in
  heap w' !! r = Some (Region.with_listeners [] (Region.record ERemove reg))
  /\ emitted w' = emitted w ++ [RegionRemoved r]
  /\ regions_of w' = without r (regions_of w)
  /\ children w' = children w
  /\ mutations w' = mutations w.
Proof.
  intros Hreg Hvr Hls. destruct (remove_listeners_of vr Hvr) as (F1 & F2 & F3 & F4).
  cbn zeta. unfold emit. rewrite Hreg, Hls. cbn [event_name]. rewrite F1.
  set (w1 := update_region (Region.record ERemove) r w).
  assert (heap w1 !! r = Some (Region.record ERemove reg)) as H1.
  { subst w1. cbn. by rewrite lookup_alter_eq, Hreg. }
  assert (emitted w1 = emitted w /\ arrays w1 = arrays w /\ regions w1 = regions w
          /\ children w1 = children w /\ mutations w1 = mutations w)
    as (E1 & A1 & R1 & C1 & M1) by done.
  clearbody w1. cbn [foldl]. rewrite (deliver_eq ERemove SavedRemove r w1 _ H1).
  cbn [listeners Region.record Region.with_trace]. rewrite Hls, F2.
  set (w2 := run_handler SavedRemove ERemove r w1).
  assert (heap w2 !! r = Some (Region.with_listeners vr (Region.record ERemove reg))
          /\ emitted w2 = emitted w ++ [RegionRemoved r]
          /\ regions_of w2 = without r (regions_of w)
          /\ children w2 = children w /\ mutations w2 = mutations w) as (H2 & E2 & R2 & C2 & M2).
  { subst w2. unfold run_handler. cbn. rewrite lookup_alter_eq, H1. cbn.
    rewrite Hls, F3, E1, C1, M1. split; [done |]. split; [done |]. split; [| done].
    unfold regions_of, array_at. cbn. by rewrite lookup_insert_eq, A1, R1. }
  clearbody w2. clear H1. destruct Hvr as [-> | ->]; cbn [foldl]; [done |].
  rewrite (deliver_eq ERemove VirtualRemove r w2 _ H2). cbn [listeners Region.with_listeners].
  rewrite bool_decide_eq_true_2 by (apply list_elem_of_singleton; done).
  unfold run_handler. cbn. rewrite lookup_alter_eq, H2. by cbn.
Qed.

Lemma armed_unsubscribed (t : DragTarget) (reg : SingleRegion) :
  Forall (fun s => live s = false) (subscriptions reg) -> armed t reg = false.
Proof.
  intros Hall. unfold armed. apply not_true_iff_false. rewrite existsb_exists.
  intros (s & Hs & Hlive). apply andb_true_iff in Hlive as [Hlive _].
  rewrite Forall_forall in Hall. apply list_elem_of_In in Hs.
  specialize (Hall s Hs). congruence.
Qed.

Lemma unsubscribe_all (l : list Subscription) :
  Forall (fun s => live s = false) (unsubscribe <$> l).
Proof. apply Forall_fmap, Forall_true. by intros. Qed.

(** C8 (as stated, refuted): the region [[2, 4]] is removed and [play()] is
    called on the handle afterwards: [play()] emits with no regard to the
    removal, so the region's stream holds a [play] after the [remove]. *)
Lemma C8_play_after_remove_emits :
  let w := outcome_state (remove 0%nat Examples.shown_2_4) in
  remove 0%nat Examples.shown_2_4 = Returned w
  /\ trace <$> heap w !! 0%nat = Some [ERemove]
  /\ trace <$> heap (play 0%nat w) !! 0%nat = Some [ERemove; EPlay].
Proof. by vm_compute. Qed.

(** C8 (amended): [remove()] on a persisted region returns after emitting one
    [remove] on the region and one [region-removed] on the plugin; then no
    listener of the plugin is left on the region, all its drag and resize
    subscriptions are released, its element is [null] and not a child of the
    container, and the collection does not hold the region; in that state drag
    and resize gestures and mouse events on the region do nothing, and an
    event the region still emits (a later [play()] does emit) is not passed
    on by the plugin, neither to its stream nor to the host. *)
Theorem C8_remove_amended (r : nat) (w : World) :
  persisted r w ->
  exists reg w' reg',
    heap w !! r = Some reg /\ remove r w = Returned w' /\ heap w' !! r = Some reg' /\
    trace reg' = trace reg ++ [ERemove] /\
    emitted w' = emitted w ++ [RegionRemoved r] /\
    listeners reg' = [] /\
    Forall (fun s => live s = false) (subscriptions reg') /\
    element reg' = None /\
    includes (children w') r = false /\
    includes (regions_of w') r = false /\
    (forall t dx, drag_move t dx r w' = Returned w') /\
    (forall t, drag_end t r w' = w') /\
    (forall e, mouse e r w' = w') /\
    (forall e, emitted (emit e r w') = emitted w' /\ hostCalls (emit e r w') = hostCalls w').
Proof.
  intros (Hin & reg & Hreg & [el Hel] & Hls).
  assert (exists vr, (vr = [] \/ vr = [VirtualRemove])
                     /\ listeners reg = regionSubscriptions ++ vr) as (vr & Hvr & Hls').
  { destruct Hls as [-> | ->]; [exists [] | exists [VirtualRemove]]; split; auto. }
  destruct (emit_remove_persisted r w reg vr Hreg Hvr Hls') as (H1 & E1 & R1 & C1 & M1).
  unfold remove. set (w1 := emit ERemove r w) in *. clearbody w1.
  set (reg' := Region.with_element None
                 (Region.with_subscriptions (unsubscribe <$> subscriptions reg)
                    (Region.with_listeners [] (Region.record ERemove reg)))).
  cbn [heap update_region with_heap]. rewrite lookup_alter_eq, H1.
  cbn [fmap option_fmap option_map element Region.with_subscriptions Region.with_listeners
         Region.record Region.with_trace]. rewrite Hel.
  eexists reg, _, reg'. split; [done |]. split; [reflexivity |].
  set (w' := update_region _ _ _).
  assert (heap w' !! r = Some reg') as Hreg'.
  { subst w'. cbn. rewrite !lookup_alter_eq, H1. done. }
  assert (includes (children w') r = false) as Hch.
  { subst w'. cbn [children update_region with_heap removeChild with_children
      with_mutations]. by rewrite includes_without, Nat.eqb_refl. }
  assert (emitted w' = emitted w1 /\ arrays w' = arrays w1 /\ regions w' = regions w1)
    as (E' & A' & R') by done.
  clearbody w'.
  assert (Forall (fun s => live s = false) (subscriptions reg')) as Hsubs
    by apply unsubscribe_all.
  split; [done |]. split; [done |]. split; [by rewrite E' |]. split; [done |].
  split; [done |]. split; [done |]. split; [done |]. split.
  { unfold regions_of, array_at in *. rewrite A', R', R1, includes_without.
    by rewrite Nat.eqb_refl. }
  split; [| split; [| split]].
  - intros t dx. unfold drag_move. by rewrite Hreg', (armed_unsubscribed t reg' Hsubs).
  - intros t. unfold drag_end. by rewrite Hreg', (armed_unsubscribed t reg' Hsubs).
  - intros e. unfold mouse. rewrite Hch. by destruct e.
  - intros e. by rewrite (emit_unheard e r w' reg' Hreg').
Qed.

Lemma C8_remove_amended_witness :
  exists w', remove 0%nat Examples.shown_2_4 = Returned w'
             /\ includes (regions_of w') 0%nat = false.
Proof.
  destruct (C8_remove_amended 0%nat Examples.shown_2_4)
    as (reg & w' & reg' & _ & Hret & _ & _ & _ & _ & _ & _ & _ & Hout & _).
  - split; [vm_compute; by left |].
    eexists. split; [by vm_compute |]. split; [by eexists |]. right. by vm_compute.
  - exists w'. split; [exact Hret | exact Hout].
Defined.

(** ** Deferred creation *)

Lemma readied_fields (d : Q) (reg : SingleRegion) :
  is_Some (element reg) ->
  start (readied d reg) = start reg /\ end_ (readied d reg) = end_ reg
  /\ totalDuration (readied d reg) = d
  /\ minLength (readied d reg) = minLength reg
  /\ maxLength (readied d reg) = maxLength reg
  /\ drag (readied d reg) = drag reg /\ resize (readied d reg) = resize reg
  /\ subscriptions (readied d reg) = subscriptions reg
  /\ trace (readied d reg) = trace reg
  /\ listeners (readied d reg) = listeners reg ++ regionSubscriptions
  /\ element (readied d reg)
     = (fun el => {| part := part el;
                     left := (fun x => JS.mul x 100) <$> JS.quot (start reg) d;
                     right := (fun x => JS.mul x 100) <$> JS.quot (JS.sub d (end_ reg)) d;
                     handles := handles el |}) <$> element reg.
Proof.
  intros [el Hel]. unfold readied, Region._setTotalDuration, Region.renderPosition,
    Region.on_element. cbn [element Region.with_totalDuration]. rewrite Hel. by cbn.
Qed.

Lemma saveRegion_fields (r : nat) (w : World) :
  heap (saveRegion r w)
  = alter (fun reg => Region.with_listeners (listeners reg ++ regionSubscriptions) reg)
      r (heap w)
  /\ regions_of (saveRegion r w) = regions_of w ++ [r]
  /\ emitted (saveRegion r w) = emitted w ++ [RegionCreated r]
  /\ timers (saveRegion r w) = timers w ++ [VirtualAppendTimer r]
  /\ readyOnce (saveRegion r w) = readyOnce w
  /\ duration (saveRegion r w) = duration w.
Proof.
  repeat split; try done.
  unfold regions_of, array_at, saveRegion. cbn. by rewrite lookup_insert_eq.
Qed.

(** One pending callback. *)
Lemma ready_step (d : Q) (x : nat) (rest : list nat) (w : World) (regx : SingleRegion) :
  heap w !! x = Some regx -> is_Some (element regx) ->
  exists wx,
    ready_callbacks d (x :: rest) w = ready_callbacks d rest wx
    /\ heap wx = <[x := readied d regx]> (heap w)
    /\ regions_of wx = regions_of w ++ [x]
    /\ emitted wx = emitted w ++ [RegionCreated x]
    /\ timers wx = timers w ++ [VirtualAppendTimer x]
    /\ readyOnce wx = rest
    /\ duration wx = duration w.
Proof.
  intros Hx [el Hel]. cbn [ready_callbacks]. unfold lift. rewrite Hx.
  unfold Region._setTotalDuration, Region.renderPosition, Region.on_element.
  cbn [element Region.with_totalDuration]. rewrite Hel. cbn [outcome_bind].
  eexists. split; [reflexivity |].
  destruct (saveRegion_fields x
    (with_readyOnce rest
       (with_heap (<[x := Region.with_element
           (Some {| part := part el;
                    left := Region.leftPercent (Region.with_totalDuration d regx);
                    right := Region.rightPercent (Region.with_totalDuration d regx);
                    handles := handles el |})
           (Region.with_totalDuration d regx)]> (heap w)) w)))
    as (Hh & Hr & He & Ht & Ho & Hd).
  rewrite Hh, Hr, He, Ht, Ho, Hd. cbn [heap with_readyOnce with_heap].
  split; [| done]. rewrite alter_insert_eq. f_equal.
  unfold readied, Region._setTotalDuration, Region.renderPosition, Region.on_element.
  cbn [element Region.with_totalDuration]. by rewrite Hel.
Qed.

Lemma ready_callbacks_last (d : Q) (r : nat) (pending : list nat) :
  forall (w : World) (reg : SingleRegion),
    ~ In r pending -> heap w !! r = Some reg -> is_Some (element reg) ->
    pending_ready pending w ->
    exists w',
      ready_callbacks d (pending ++ [r]) w = Returned w'
      /\ heap w' !! r = Some (readied d reg)
      /\ regions_of w' = regions_of w ++ pending ++ [r]
      /\ emitted w' = emitted w ++ (RegionCreated <$> pending ++ [r])
      /\ timers w' = timers w ++ (VirtualAppendTimer <$> pending ++ [r])
      /\ readyOnce w' = []
      /\ duration w' = duration w.
Proof.
  induction pending as [| x pending IH]; intros w reg Hnin Hreg Hel Hpend.
  - cbn [app].
    destruct (ready_step d r [] w reg Hreg Hel) as (wx & -> & Hh & Hr & He & Ht & Ho & Hd).
    exists wx. cbn [ready_callbacks]. rewrite Hh, lookup_insert_eq. by repeat split.
  - cbn [app].
    destruct (Hpend x) as (regx & Hx & Hxel); [by left |].
    destruct (ready_step d x (pending ++ [r]) w regx Hx Hxel)
      as (wx & -> & Hh & Hr & He & Ht & Ho & Hd).
    assert (x <> r) as Hne by (intros ->; apply Hnin; by left).
    destruct (IH wx reg) as (w' & Hret & Hh' & Hr' & He' & Ht' & Ho' & Hd').
    + intros H. apply Hnin. by right.
    + by rewrite Hh, lookup_insert_ne.
    + done.
    + intros y Hy. rewrite Hh. destruct (decide (x = y)) as [-> | Hxy].
      * rewrite lookup_insert_eq. eexists. split; [done |].
        destruct (readied_fields d regx Hxel) as (_ & _ & _ & _ & _ & _ & _ & _ & _ & _ & ->).
        destruct Hxel as [el ->]. by eexists.
      * rewrite lookup_insert_ne by done. apply Hpend. by right.
    + exists w'. rewrite Hret, Hh', Hr', He', Ht', Ho', Hd', Hr, He, Ht, Hd.
      cbn [fmap list_fmap app]. rewrite <- !app_assoc. by repeat split.
Qed.

Lemma occurrences_not_in {A} `{EqDecision A} (x : A) (l : list A) :
  ~ In x l -> occurrences x l = 0%nat.
Proof.
  intros Hnin. unfold occurrences. induction l as [| a l IH]; [done |].
  cbn. rewrite bool_decide_eq_false_2.
  - apply IH. intros H. apply Hnin. by right.
  - intros ->. apply Hnin. by left.
Qed.

Lemma occurrences_self {A} `{EqDecision A} (x : A) : occurrences x [x] = 1%nat.
Proof. unfold occurrences. cbn. by rewrite bool_decide_eq_true_2. Qed.

Lemma new_fields (options : RegionParams) (td : Q) :
  is_Some (element (Region.new options td))
  /\ listeners (Region.new options td) = []
  /\ start (Region.new options td) = Region.clampPosition td (p_start options)
  /\ end_ (Region.new options td)
     = Region.clampPosition td (default (p_start options) (p_end options)).
Proof. unfold Region.new. cbn. split; [by eexists | done]. Qed.

(** [addRegion] while the duration is zero, then [ready]. *)
Lemma addRegion_deferred (options : RegionParams) (d : Q) (w : World) :
  wavesurfer w = true -> duration w == 0 -> pending_ready (readyOnce w) w ->
  exists r w1 w2,
    addRegion options w = Some (r, w1)
    /\ heap w !! r = None /\ ~ In r (readyOnce w)
    /\ heap w1 !! r = Some (Region.new options (duration w))
    /\ regions_of w1 = regions_of w /\ emitted w1 = emitted w
    /\ on_ready d w1 = Returned w2
    /\ heap w2 !! r = Some (readied d (Region.new options (duration w)))
    /\ regions_of w2 = regions_of w ++ readyOnce w ++ [r]
    /\ emitted w2 = emitted w ++ (RegionCreated <$> readyOnce w ++ [r])
    /\ timers w2 = timers w ++ (VirtualAppendTimer <$> readyOnce w ++ [r])
    /\ readyOnce w2 = [].
Proof.
  intros Hws Hd Hpend. unfold addRegion. rewrite Hws. cbn [negb].
  apply JS_eq_iff in Hd. rewrite Hd.
  set (r := fresh (dom (heap w))).
  assert (heap w !! r = None) as Hfresh by (apply not_elem_of_dom, is_fresh).
  assert (~ In r (readyOnce w)) as Hnin.
  { intros Hin. destruct (Hpend r Hin) as (reg & Hreg & _). congruence. }
  set (w1 := with_readyOnce _ _).
  destruct (ready_callbacks_last d r (readyOnce w) (with_duration d w1)
              (Region.new options (duration w)))
    as (w2 & Hret & Hh & Hr & He & Ht & Ho & _).
  - done.
  - subst w1. cbn. by rewrite lookup_insert_eq.
  - apply new_fields.
  - intros x Hx. subst w1. cbn. rewrite lookup_insert_ne; [by apply Hpend |].
    intros <-. by apply Hnin.
  - exists r, w1, w2. split; [done |]. split; [done |]. split; [done |].
    split; [subst w1; cbn; by rewrite lookup_insert_eq |].
    split; [done |]. split; [done |]. by repeat split.
Qed.

(** C6 (as stated, refuted): two regions are created while the host's
    duration is zero and the first is removed before [ready].  When [ready]
    arrives with 10 seconds, the callback of the removed region throws in
    [renderPosition], its element being [null], and the callback of the
    second region is not reached: the second region keeps [totalDuration]
    zero, is not in the collection, and no [region-created] has been emitted
    for it. *)
Lemma C6_removed_deferred_region_blocks_ready :
  exists a w1 b w2 w3 w4 regb,
    addRegion (Examples.params 1 (Some 2)) Examples.host0 = Some (a, w1)
    /\ addRegion (Examples.params 3 (Some 4)) w1 = Some (b, w2)
    /\ a <> b
    /\ remove a w2 = Returned w3
    /\ on_ready 10 w3 = Threw w4
    /\ heap w4 !! b = Some regb /\ totalDuration regb = 0
    /\ ~ In b (regions_of w4)
    /\ occurrences (RegionCreated b) (emitted w4) = 0%nat.
Proof.
  do 7 eexists.
  split; [by vm_compute |]. split; [by vm_compute |]. split; [done |].
  split; [by vm_compute |]. split; [by vm_compute |]. split; [by vm_compute |].
  split; [by vm_compute |]. split; [| by vm_compute].
  intros H. vm_compute in H. destruct H.
Qed.



(** C10: whatever [start] and [end] are asked for, a region created while
    the host's duration is zero has [start] and [end] equal to zero; the
    [ready] callback sets [totalDuration] and renders [style.left] and
    [style.right] again, leaves [start] and [end] as they are, and persists
    the region, which is then a marker at time zero in the collection. *)
Theorem C10_deferred_region_is_marker_at_zero (options : RegionParams) (d : Q) (w : World) :
  wavesurfer w = true -> duration w == 0 -> pending_ready (readyOnce w) w ->
  exists r w1 reg1,
    addRegion options w = Some (r, w1)
    /\ heap w1 !! r = Some reg1 /\ start reg1 == 0 /\ end_ reg1 == 0
    /\ exists w2 reg2 el1,
        on_ready d w1 = Returned w2 /\ heap w2 !! r = Some reg2
        /\ totalDuration reg2 = d
        /\ start reg2 = start reg1 /\ end_ reg2 = end_ reg1
        /\ minLength reg2 = minLength reg1 /\ maxLength reg2 = maxLength reg1
        /\ drag reg2 = drag reg1 /\ resize reg2 = resize reg1
        /\ element reg1 = Some el1
        /\ element reg2
           = Some {| part := part el1;
                     left := (fun x => JS.mul x 100) <$> JS.quot (start reg1) d;
                     right := (fun x => JS.mul x 100)
                              <$> JS.quot (JS.sub d (end_ reg1)) d;
                     handles := handles el1 |}
        /\ Region.isMarker reg2 = true
        /\ In r (regions_of w2).
Proof.
  intros Hws Hd Hpend.
  destruct (addRegion_deferred options d w Hws Hd Hpend)
    as (r & w1 & w2 & Hadd & Hfresh & Hnin & Hh1 & Hr1 & He1 & Hret & Hh2 & Hr2 & He2 & Ht2 & Ho2).
  destruct (new_fields options (duration w)) as (Hel & Hls & Hs & He).
  destruct (readied_fields d (Region.new options (duration w)) Hel)
    as (Hs' & He' & Htd & Hmin & Hmax & Hdrag & Hres & _ & _ & _ & Hel').
  assert (start (Region.new options (duration w)) == 0) as Hs0
    by (rewrite Hs; by apply clampPosition_zero).
  assert (end_ (Region.new options (duration w)) == 0) as He0
    by (rewrite He; by apply clampPosition_zero).
  exists r, w1, (Region.new options (duration w)).
  split; [done |]. split; [done |]. split; [done |]. split; [done |].
  destruct Hel as [el1 Hel1].
  exists w2, (readied d (Region.new options (duration w))), el1.
  split; [done |]. split; [done |]. split; [done |]. split; [done |]. split; [done |].
  split; [done |]. split; [done |]. split; [done |]. split; [done |]. split; [done |].
  split; [by rewrite Hel', Hel1 |]. split.
  - unfold Region.isMarker. apply JS_eq_iff. rewrite Hs', He'. by rewrite Hs0, He0.
  - rewrite Hr2. apply in_or_app. right. apply in_or_app. right. by left.
Qed.

Lemma C10_deferred_region_is_marker_at_zero_witness :
  exists r w1 w2 reg2,
    addRegion (Examples.params 1 (Some 2)) Examples.host0 = Some (r, w1)
    /\ on_ready 10 w1 = Returned w2 /\ heap w2 !! r = Some reg2
    /\ totalDuration reg2 = 10 /\ start reg2 == 0 /\ end_ reg2 == 0.
Proof.
  destruct (C10_deferred_region_is_marker_at_zero (Examples.params 1 (Some 2)) 10 Examples.host0)
    as (r & w1 & reg1 & Hadd & _ & Hs & He & w2 & reg2 & el1 & Hret & Hreg2 & Htd & Hs2 & He2 & _).
  - reflexivity.
  - reflexivity.
  - intros x Hx. vm_compute in Hx. destruct Hx.
  - exists r, w1, w2, reg2. rewrite Hs2, He2. by repeat split.
Defined.

(** ** Further facts about persistence and removal *)

(** [saveRegion] on a region nobody listens to yet makes it persisted. *)
Lemma saveRegion_persisted (r : nat) (w : World) (reg : SingleRegion) :
  heap w !! r = Some reg -> is_Some (element reg) -> listeners reg = [] ->
  persisted r (saveRegion r w).
Proof.
  intros Hreg Hel Hls. destruct (saveRegion_fields r w) as (Hh & Hr & _).
  split.
  - rewrite Hr. apply in_or_app. right. by left.
  - eexists. rewrite Hh, lookup_alter_eq, Hreg. split; [done |]. split; [done |].
    left. cbn. by rewrite Hls.
Qed.

(** The virtualization timer keeps the element it was given: when the region
    is removed before the timer runs, the timer attaches the element of the
    removed region again, and a click on it reaches the region's stream. *)
Lemma removed_before_timer_is_attached_again :
  let w := Examples.added (Examples.params 2 (Some 4)) Examples.host10 in
  let w' := outcome_state (remove 0%nat w) in
  remove 0%nat w = Returned w'
  /\ children w' = [] /\ timers w' = [VirtualAppendTimer 0]
  /\ children (tick w') = [0%nat]
  /\ trace <$> heap (mouse EClick 0%nat (tick w')) !! 0%nat = Some [ERemove; EClick].
Proof. by vm_compute. Qed.

(** * Further properties of the code *)

(** ** Options *)

Lemma clampPosition_idempotent (td t : Q) :
  Region.clampPosition td (Region.clampPosition td t) == Region.clampPosition td t.
Proof.
  unfold Region.clampPosition.
  remember (JS.Math_min td t) as m1 eqn:E1.
  destruct (Math_min_spec td t) as [[H1 F1] | [H1 F1]]; rewrite <- E1 in F1;
    remember (JS.Math_max 0 m1) as c eqn:E2;
    (destruct (Math_max_spec 0 m1) as [[H2 F2] | [H2 F2]]; rewrite <- E2 in F2;
     remember (JS.Math_min td c) as m2 eqn:E3;
     (destruct (Math_min_spec td c) as [[H3 F3] | [H3 F3]]; rewrite <- E3 in F3;
      remember (JS.Math_max 0 m2) as c2 eqn:E4;
      (destruct (Math_max_spec 0 m2) as [[H4 F4] | [H4 F4]]; rewrite <- E4 in F4;
       clear E1 E2 E3 E4; subst; lra))).
Qed.

(** X3: [setOptions({start: s})] on a region whose element exists returns
    with [start] clamped from [s]; a marker stays a marker (its [end] follows
    the new [start] and the [part] attribute stays [marker]), while a region
    that is not a marker keeps its own [end], clamped again. *)
Theorem setOptions_start_moves_marker (s : Q) (reg : SingleRegion) (el : Element) :
  element reg = Some el ->
  exists reg',
    Region.setOptions (Options.only_start s) reg = Returned reg' /\
    start reg' = Region.clampPosition (totalDuration reg) s /\
    totalDuration reg' = totalDuration reg /\
    (Region.isMarker reg = true ->
       end_ reg' == start reg' /\ Region.isMarker reg' = true
       /\ part <$> element reg' = Some PartMarker) /\
    (Region.isMarker reg = false ->
       end_ reg' = Region.clampPosition (totalDuration reg) (end_ reg)).
Proof.
  intros Hel. unfold Region.setOptions, Options.only_start.
  cbn [o_color o_drag o_start o_end o_id o_resize outcome_bind default].
  unfold Region.renderPosition, Region.setPart, Region.on_element.
  cbn [element Region.with_bounds]. rewrite Hel. cbn [outcome_bind element Region.with_element].
  eexists. split; [reflexivity |].
  cbn -[Region.clampPosition Region.leftPercent Region.rightPercent JS.eq].
  pose proof (clampPosition_idempotent (totalDuration reg) s) as Heq.
  split; [done |]. split; [done |]. split.
  - intros Hm. rewrite Hm. unfold Region.isMarker.
    cbn -[Region.clampPosition Region.leftPercent Region.rightPercent JS.eq].
    assert (JS.eq (Region.clampPosition (totalDuration reg) s)
              (Region.clampPosition (totalDuration reg)
                 (Region.clampPosition (totalDuration reg) s)) = true) as Hm'
      by (apply JS_eq_iff; by symmetry).
    by rewrite Hm'.
  - intros Hm. by rewrite Hm.
Qed.

Lemma setOptions_start_moves_marker_witness :
  exists reg',
    Region.setOptions (Options.only_start 7) (Region.new (Examples.params 5 None) 10)
    = Returned reg'
    /\ start reg' == 7 /\ end_ reg' == 7.
Proof.
  destruct (new_fields (Examples.params 5 None) 10) as ([el Hel] & _).
  destruct (setOptions_start_moves_marker 7 (Region.new (Examples.params 5 None) 10) el Hel)
    as (reg' & Hret & Hs & _ & Hm & _).
  exists reg'. split; [done |].
  destruct Hm as (He & _); [by vm_compute |]. rewrite He, Hs. by vm_compute.
Defined.

Lemma setOptions_only_drag (d : bool) (reg : SingleRegion) (el : Element) :
  element reg = Some el ->
  Region.setOptions (Options.only_drag d) reg
  = Returned (Region.with_element (Some el) (Region.with_flags d (resize reg) reg)).
Proof.
  intros Hel. unfold Region.setOptions, Options.only_drag.
  cbn [o_color o_drag o_start o_end o_id o_resize outcome_bind default].
  unfold Region.on_element. cbn [element Region.with_flags]. by rewrite Hel.
Qed.

Lemma setOptions_only_resize (z : bool) (reg : SingleRegion) (el : Element) :
  element reg = Some el ->
  Region.setOptions (Options.only_resize z) reg
  = Returned
      (if Bool.eqb z (resize reg) then reg
       else
         let reg' :=
           Region.with_element
             (Some {| part := part el; left := left el; right := right el;
                      handles := z && negb (Region.isMarker reg) |})
             (Region.with_flags (drag reg) z reg) in
         if z && negb (Region.isMarker reg)
         then Region.with_subscriptions
                (subscriptions reg ++ [subscribe DragLeftHandle; subscribe DragRightHandle])
                reg'
         else reg').
Proof.
  intros Hel. unfold Region.setOptions, Options.only_resize.
  cbn [o_color o_drag o_start o_end o_id o_resize outcome_bind default].
  destruct (Bool.eqb z (resize reg)); [done |]. cbn zeta.
  destruct (z && negb (Region.isMarker reg)) eqn:E.
  - unfold Region.addResizeHandles, Region.on_element.
    cbn [element Region.with_flags]. by rewrite Hel.
  - unfold Region.removeResizeHandles, Region.on_element.
    cbn [element Region.with_flags]. by rewrite Hel.
Qed.

(** X4: on a region that is not a marker, has its element and can be
    resized, [setOptions({resize: false})] takes the two handles out of the
    element and [setOptions({resize: true})] puts two handles back; bounds,
    duration, [drag] flag and rendered position are the same after both calls.
    The subscriptions of the first pair of handles are not released: the
    second call adds two more to them. *)
Theorem setOptions_resize_round_trip (reg : SingleRegion) (el : Element) :
  element reg = Some el -> resize reg = true -> Region.isMarker reg = false ->
  exists r1 r2,
    Region.setOptions (Options.only_resize false) reg = Returned r1
    /\ resize r1 = false
    /\ element r1 = Some {| part := part el; left := left el; right := right el;
                            handles := false |}
    /\ subscriptions r1 = subscriptions reg
    /\ Region.setOptions (Options.only_resize true) r1 = Returned r2
    /\ resize r2 = true
    /\ element r2 = Some {| part := part el; left := left el; right := right el;
                            handles := true |}
    /\ subscriptions r2
       = subscriptions reg ++ [subscribe DragLeftHandle; subscribe DragRightHandle]
    /\ (start r2, end_ r2, totalDuration r2, drag r2, minLength r2, maxLength r2)
       = (start reg, end_ reg, totalDuration reg, drag reg, minLength reg, maxLength reg)
    /\ (listeners r2, trace r2) = (listeners reg, trace reg).
Proof.
  intros Hel Hres Hm.
  eexists. eexists. split.
  { rewrite (setOptions_only_resize false reg el Hel), Hres. cbn. reflexivity. }
  split; [done |]. split; [done |]. split; [done |]. split.
  { erewrite setOptions_only_resize; [| reflexivity]. cbn [resize Region.with_element
      Region.with_flags Bool.eqb]. reflexivity. }
  unfold Region.isMarker in *. cbn in *. rewrite Hm. by cbn.
Qed.

Lemma setOptions_resize_round_trip_witness :
  exists r1 r2,
    Region.setOptions (Options.only_resize false) (Region.new (Examples.params 2 (Some 4)) 10)
    = Returned r1
    /\ Region.setOptions (Options.only_resize true) r1 = Returned r2
    /\ handles <$> element r1 = Some false /\ handles <$> element r2 = Some true
    /\ length (subscriptions r2) = 5%nat.
Proof.
  destruct (new_fields (Examples.params 2 (Some 4)) 10) as ([el Hel] & _).
  destruct (setOptions_resize_round_trip (Region.new (Examples.params 2 (Some 4)) 10) el Hel)
    as (r1 & r2 & H1 & _ & He1 & _ & H2 & _ & He2 & Hs & _); try by vm_compute.
  exists r1, r2. rewrite He1, He2, Hs. by repeat split.
Defined.

(** X5: once [setOptions({drag: false})] has returned on a region whose
    element exists, a drag gesture on the element changes nothing and its end
    emits no [update-end]; once [setOptions({resize: false})] has returned, the
    same holds for gestures on either resize handle. *)
Theorem gestures_follow_the_flags (r : nat) (w : World) (reg : SingleRegion) (el : Element) :
  heap w !! r = Some reg -> element reg = Some el ->
  (let w1 := outcome_state (lift (Region.setOptions (Options.only_drag false)) r w) in
   forall dx, drag_move DragElement dx r w1 = Returned w1
              /\ drag_end DragElement r w1 = w1)
  /\ (let w1 := outcome_state (lift (Region.setOptions (Options.only_resize false)) r w) in
      forall t dx, t <> DragElement ->
                   drag_move t dx r w1 = Returned w1 /\ drag_end t r w1 = w1).
Proof.
  intros Hreg Hel. split.
  - cbn zeta. unfold lift. rewrite Hreg, (setOptions_only_drag false reg el Hel).
    cbn [outcome_state]. set (w1 := with_heap _ _).
    assert (exists reg1, heap w1 !! r = Some reg1 /\ drag reg1 = false) as (reg1 & H1 & Hd).
    { eexists. subst w1. cbn. by rewrite lookup_insert_eq. }
    clearbody w1. intros dx. unfold drag_move, drag_end, onMove. rewrite H1, Hd.
    by destruct (armed DragElement reg1).
  - cbn zeta. unfold lift. rewrite Hreg, (setOptions_only_resize false reg el Hel).
    cbn [outcome_state]. set (w1 := with_heap _ _).
    assert (exists reg1, heap w1 !! r = Some reg1 /\ resize reg1 = false) as (reg1 & H1 & Hd).
    { eexists. subst w1. cbn [heap with_heap]. rewrite lookup_insert_eq. split; [done |].
      destruct (resize reg) eqn:E; by cbn. }
    clearbody w1. intros t dx Ht.
    unfold drag_move, drag_end, onResize, onEndResizing. rewrite H1, Hd.
    by destruct (armed t reg1), t.
Qed.

Lemma gestures_follow_the_flags_witness :
  let w1 := outcome_state
              (lift (Region.setOptions (Options.only_drag false)) 0%nat Examples.shown_2_4) in
  drag_move DragElement 10 0%nat w1 = Returned w1.
Proof.
  destruct (heap Examples.shown_2_4 !! 0%nat) as [reg |] eqn:Hreg;
    [| vm_compute in Hreg; discriminate].
  destruct (element reg) as [el |] eqn:Hel;
    [| vm_compute in Hreg; injection Hreg as <-; discriminate].
  destruct (gestures_follow_the_flags 0%nat Examples.shown_2_4 reg el Hreg Hel) as [H _].
  apply H.
Defined.

(** ** Events of a persisted region *)










(** ** Removing persisted regions *)

(** The listeners of the plugin leave the host readings, the container, the
    timers and the active set alone. *)
Lemma run_handler_frame (h : Handler) (e : RegionEvent) (r : nat) (w : World) :
  let w' := run_handler h e r w in
  children w' = children w /\ mutations w' = mutations w
  /\ activeRegions w' = activeRegions w /\ timers w' = timers w
  /\ wavesurfer w' = wavesurfer w /\ duration w' = duration w
  /\ scroll w' = scroll w /\ width w' = width w /\ clientWidth w' = clientWidth w.
Proof.
  destruct h; cbn -[adjustScroll]; try done.
  - destruct e as [| | | | [s |] | | |]; try done.
    cbn -[adjustScroll]. by destruct (adjustScroll_frame r w) as [sc ->].
  - destruct (heap w !! r); [| done]. destruct (wavesurfer w) eqn:E; cbn; by rewrite ?E.
Qed.

Lemma emit_frame (e : RegionEvent) (r : nat) (w : World) :
  let w' := emit e r w in
  children w' = children w /\ mutations w' = mutations w
  /\ activeRegions w' = activeRegions w /\ timers w' = timers w
  /\ wavesurfer w' = wavesurfer w /\ duration w' = duration w
  /\ scroll w' = scroll w /\ width w' = width w /\ clientWidth w' = clientWidth w.
Proof.
  cbn zeta. unfold emit. destruct (heap w !! r) as [reg |]; [| done].
  generalize (List.filter (fun h => bool_decide (handler_event h = event_name e))
                (listeners reg)).
  intros hs.
  assert (forall w0,
    let w' := foldl (deliver e r) w0 hs in
    children w' = children w0 /\ mutations w' = mutations w0
    /\ activeRegions w' = activeRegions w0 /\ timers w' = timers w0
    /\ wavesurfer w' = wavesurfer w0 /\ duration w' = duration w0
    /\ scroll w' = scroll w0 /\ width w' = width w0 /\ clientWidth w' = clientWidth w0) as H.
  { induction hs as [| h hs IH]; intros w0; [done |]. cbn [foldl].
    destruct (IH (deliver e r w0 h)) as (-> & -> & -> & -> & -> & -> & -> & -> & ->).
    unfold deliver. destruct (listening h r w0); [| done]. apply run_handler_frame. }
  apply (H (update_region (Region.record e) r w)).
Qed.

(** The scroll subscriptions after [emit('remove')] on a persisted region. *)
Lemma emit_remove_scrollSubs (r : nat) (w : World) (reg : SingleRegion) (vr : list Handler) :
  heap w !! r = Some reg -> vr = [] \/ vr = [VirtualRemove] ->
  listeners reg = regionSubscriptions ++ vr ->
  scrollSubs (emit ERemove r w)
  = match vr with [] => scrollSubs w | _ => without r (scrollSubs w) end.
Proof.
  intros Hreg Hvr Hls. destruct (remove_listeners_of vr Hvr) as (F1 & F2 & F3 & F4).
  unfold emit. rewrite Hreg, Hls. cbn [event_name]. rewrite F1.
  set (w1 := update_region (Region.record ERemove) r w).
  assert (heap w1 !! r = Some (Region.record ERemove reg)) as H1.
  { subst w1. cbn. by rewrite lookup_alter_eq, Hreg. }
  assert (scrollSubs w1 = scrollSubs w) as S1 by done.
  clearbody w1. cbn [foldl]. rewrite (deliver_eq ERemove SavedRemove r w1 _ H1).
  cbn [listeners Region.record Region.with_trace]. rewrite Hls, F2.
  set (w2 := run_handler SavedRemove ERemove r w1).
  assert (heap w2 !! r = Some (Region.with_listeners vr (Region.record ERemove reg))
          /\ scrollSubs w2 = scrollSubs w) as (H2 & S2).
  { subst w2. unfold run_handler. cbn. rewrite lookup_alter_eq, H1. cbn.
    by rewrite Hls, F3, S1. }
  clearbody w2. destruct Hvr as [-> | ->]; cbn [foldl]; [done |].
  rewrite (deliver_eq ERemove VirtualRemove r w2 _ H2). cbn [listeners Region.with_listeners].
  rewrite bool_decide_eq_true_2 by (apply list_elem_of_singleton; done).
  unfold run_handler. cbn. by rewrite S2.
Qed.

(** [remove()] on a persisted region, in full. *)
Lemma remove_persisted_facts (r : nat) (w : World) (reg : SingleRegion) :
  persisted r w -> heap w !! r = Some reg ->
  exists w',
    remove r w = Returned w'
    /\ heap w' !! r = Some (removed reg)
    /\ (forall r', r' <> r -> heap w' !! r' = heap w !! r')
    /\ regions_of w' = without r (regions_of w)
    /\ emitted w' = emitted w ++ [RegionRemoved r]
    /\ children w' = without r (children w)
    /\ activeRegions w' = activeRegions w
    /\ timers w' = timers w
    /\ wavesurfer w' = wavesurfer w
    /\ scrollSubs w'
       = (if bool_decide (VirtualRemove ∈ listeners reg)
          then without r (scrollSubs w) else scrollSubs w).
Proof.
  intros (Hin & reg0 & Hreg0 & [el Hel] & Hls) Hreg. rewrite Hreg in Hreg0.
  injection Hreg0 as <-.
  assert (exists vr, (vr = [] \/ vr = [VirtualRemove])
                     /\ listeners reg = regionSubscriptions ++ vr) as (vr & Hvr & Hls').
  { destruct Hls as [-> | ->]; [exists [] | exists [VirtualRemove]]; split; auto. }
  destruct (emit_remove_persisted r w reg vr Hreg Hvr Hls') as (H1 & E1 & R1 & C1 & M1).
  pose proof (emit_remove_scrollSubs r w reg vr Hreg Hvr Hls') as S1.
  destruct (emit_frame ERemove r w) as (_ & _ & A1 & T1 & W1 & _).
  assert (forall r', r' <> r -> heap (emit ERemove r w) !! r' = heap w !! r') as N1
    by (intros r' Hne; by apply emit_heap_ne).
  unfold remove. set (w1 := emit ERemove r w) in *. clearbody w1.
  cbn [heap update_region with_heap]. rewrite lookup_alter_eq, H1.
  cbn [fmap option_fmap option_map element Region.with_subscriptions Region.with_listeners
         Region.record Region.with_trace]. rewrite Hel.
  eexists. split; [reflexivity |].
  split; [cbn; by rewrite !lookup_alter_eq, H1 |].
  split; [intros r' Hne; cbn; rewrite !lookup_alter_ne by done; by apply N1 |].
  split; [exact R1 |]. split; [exact E1 |].
  split; [cbn; by rewrite C1 |]. split; [exact A1 |]. split; [exact T1 |].
  split; [exact W1 |].
  cbn [scrollSubs update_region with_heap removeChild with_mutations with_children].
  rewrite S1, Hls'. destruct Hvr as [-> | ->]; by vm_compute.
Qed.

Lemma without_all_cons (r : nat) (gone l : list nat) :
  without_all gone (without r l) = without_all (r :: gone) l.
Proof.
  unfold without_all, without. induction l as [| x l IH]; [done |].
  cbn [List.filter includes existsb]. rewrite (Nat.eqb_sym x r).
  destruct (Nat.eqb r x); cbn [negb orb List.filter]; [done |].
  by rewrite IH.
Qed.

Lemma remove_each_persisted (l : list nat) :
  forall w : World,
    NoDup l -> (forall r, In r l -> persisted r w) ->
    exists w',
      remove_each l w = Returned w'
      /\ emitted w' = emitted w ++ (RegionRemoved <$> l)
      /\ children w' = without_all l (children w)
      /\ (forall r reg, In r l -> heap w !! r = Some reg ->
            heap w' !! r = Some (removed reg))
      /\ (forall r, ~ In r l -> heap w' !! r = heap w !! r).
Proof.
  induction l as [| r l IH]; intros w Hnd Hall.
  - exists w. cbn. rewrite app_nil_r. repeat split; try done.
    unfold without_all. by rewrite List.filter_true.
  - apply NoDup_cons in Hnd as [Hnin Hnd].
    rewrite list_elem_of_In in Hnin.
    assert (persisted r w) as Hp by (apply Hall; by left).
    destruct Hp as (Hin & reg & Hreg & Hrest).
    destruct (remove_persisted_facts r w reg) as
      (w1 & Hret & H1 & N1 & R1 & E1 & C1 & _); [by split; [| eexists] | done |].
    destruct (IH w1 Hnd) as (w' & Hret' & E' & C' & H' & N').
    { intros r' Hr'. assert (r' <> r) as Hne by (intros ->; done).
      destruct (Hall r') as (Hin' & Hp'); [by right |].
      split.
      - rewrite R1. unfold without. apply List.filter_In. split; [done |].
        apply negb_true_iff, Nat.eqb_neq. done.
      - by rewrite N1. }
    exists w'. cbn [remove_each]. rewrite Hret. cbn [outcome_bind].
    split; [done |]. split; [rewrite E', E1; cbn; by rewrite <- app_assoc |].
    split; [rewrite C', C1; apply without_all_cons |]. split.
    + intros r' reg' [<- | Hr'] Hreg'.
      * rewrite N' by done. rewrite H1. congruence.
      * apply H'; [done |]. rewrite N1; [done |]. by intros ->.
    + intros r' Hr'. rewrite N'; [| intros H; apply Hr'; by right].
      apply N1. intros ->. apply Hr'. by left.
Qed.

(** X7: when the collection has no duplicates and all its regions are
    persisted, [clearRegions()] returns with an empty collection; the plugin
    has emitted one [region-removed] per region, in the order of the
    collection; every region of the former collection has gone through
    [remove()] (one [remove] in its stream, no listener of the plugin, no live
    subscription, no element), and none of their elements is a child of the
    container. *)
Theorem clearRegions_removes_every_region (w : World) :
  NoDup (regions_of w) -> (forall r, In r (regions_of w) -> persisted r w) ->
  exists w',
    clearRegions w = Returned w'
    /\ regions_of w' = []
    /\ emitted w' = emitted w ++ (RegionRemoved <$> regions_of w)
    /\ (forall r reg, In r (regions_of w) -> heap w !! r = Some reg ->
          heap w' !! r = Some (removed reg))
    /\ (forall r, In r (regions_of w) -> includes (children w') r = false).
Proof.
  intros Hnd Hall.
  destruct (remove_each_persisted (regions_of w) w Hnd Hall) as (w1 & Hret & E1 & C1 & H1 & _).
  unfold clearRegions. rewrite Hret. cbn [outcome_bind new_array].
  eexists. split; [reflexivity |]. split.
  { unfold regions_of, array_at. cbn. by rewrite lookup_insert_eq. }
  split; [done |]. split; [done |].
  intros r Hr. cbn [children with_regions with_arrays]. rewrite C1.
  apply not_true_iff_false. rewrite includes_iff. unfold without_all.
  rewrite List.filter_In, negb_true_iff. intros [_ Hf].
  apply includes_iff in Hr. congruence.
Qed.

Lemma clearRegions_removes_every_region_witness :
  exists w', clearRegions Examples.shown_two = Returned w'
             /\ regions_of w' = []
             /\ emitted w' = emitted Examples.shown_two ++ [RegionRemoved 0; RegionRemoved 1].
Proof.
  destruct (clearRegions_removes_every_region Examples.shown_two)
    as (w' & Hret & Hr & He & _).
  - apply (bool_decide_unpack _). by vm_compute.
  - intros r Hr. vm_compute in Hr. destruct Hr as [<- | [<- | []]].
    + split; [vm_compute; by left |].
      eexists. split; [by vm_compute |]. split; [by eexists |]. right. by vm_compute.
    + split; [vm_compute; right; by left |].
      eexists. split; [by vm_compute |]. split; [by eexists |]. right. by vm_compute.
  - exists w'. split; [exact Hret |]. split; [exact Hr |]. rewrite He. by vm_compute.
Defined.

Lemma playedRegions_in_collection (t : Q) (r : nat) (w : World) :
  In r (playedRegions t w) -> In r (regions_of w).
Proof. unfold playedRegions. rewrite List.filter_In. tauto. Qed.

Lemma includes_false_iff (l : list nat) (r : nat) : includes l r = false <-> ~ In r l.
Proof. by rewrite <- not_true_iff_false, includes_iff. Qed.

Lemma without_not_in (r : nat) (l : list nat) : ~ In r (without r l).
Proof.
  unfold without. rewrite List.filter_In, negb_true_iff, Nat.eqb_neq. tauto.
Qed.

(** X8: when a persisted region is removed while it is in the active set,
    the next [timeupdate], at whatever time, emits [region-out] for it (once
    for each time it stands in the active set) and no [region-in]; the region
    is then out of the active set, and the [timeupdate] after that emits
    nothing for it. *)
Theorem removed_region_leaves_active_set
    (t t' : Q) (r : nat) (w : World) (reg : SingleRegion) :
  persisted r w -> heap w !! r = Some reg ->
  exists w1,
    remove r w = Returned w1 /\
    let w2 := on_timeupdate t w1 in
    let w3 := on_timeupdate t' w2 in
    exists evs2 evs3,
      emitted w2 = emitted w1 ++ evs2 /\ emitted w3 = emitted w2 ++ evs3
      /\ occurrences (RegionOut r) evs2 = occurrences r (activeRegions w)
      /\ occurrences (RegionIn r) evs2 = 0%nat
      /\ ~ In r (activeRegions w2)
      /\ occurrences (RegionOut r) evs3 = 0%nat
      /\ occurrences (RegionIn r) evs3 = 0%nat.
Proof.
  intros Hp Hreg.
  destruct (remove_persisted_facts r w reg Hp Hreg)
    as (w1 & Hret & _ & _ & R1 & _ & _ & A1 & _).
  exists w1. split; [done |]. cbn zeta.
  assert (forall t0 w0, regions_of w0 = regions_of w1 -> ~ In r (playedRegions t0 w0)) as Hout.
  { intros t0 w0 Heq Hin%playedRegions_in_collection.
    rewrite Heq, R1 in Hin. by apply without_not_in in Hin. }
  assert (regions_of (on_timeupdate t w1) = regions_of w1) as R2
    by (by rewrite on_timeupdate_eq).
  exists (transitions (activeRegions w1) (playedRegions t w1)),
    (transitions (playedRegions t w1) (playedRegions t' (on_timeupdate t w1))).
  split; [by rewrite on_timeupdate_eq |].
  split.
  { rewrite (on_timeupdate_eq t' (on_timeupdate t w1)).
    cbn [emitted with_activeRegions with_emitted]. by rewrite activeRegions_on_timeupdate. }
  rewrite !transitions_out, !transitions_in, activeRegions_on_timeupdate, A1.
  pose proof (Hout t w1 eq_refl) as H2. pose proof (Hout t' _ R2) as H3.
  apply includes_false_iff in H2 as H2'. apply includes_false_iff in H3 as H3'.
  rewrite H2', H3', (occurrences_not_in r _ H2), (occurrences_not_in r _ H3).
  split; [done |]. split; [by destruct (includes (activeRegions w) r) |].
  by repeat split.
Qed.

Lemma removed_region_leaves_active_set_witness :
  exists w1,
    remove 0%nat playing_2_4 = Returned w1
    /\ emitted (on_timeupdate 3 w1) = emitted w1 ++ [RegionOut 0].
Proof.
  assert (persisted 0%nat playing_2_4) as Hp.
  { split; [vm_compute; by left |].
    eexists. split; [by vm_compute |]. split; [by eexists |]. right. by vm_compute. }
  destruct (heap playing_2_4 !! 0%nat) as [reg |] eqn:Hreg;
    [| vm_compute in Hreg; discriminate].
  destruct (removed_region_leaves_active_set 3 5 0%nat playing_2_4 reg Hp Hreg)
    as (w1 & Hret & _).
  exists w1. split; [done |].
  vm_compute in Hret. injection Hret as <-. by vm_compute.
Defined.

(** ** Virtualization over a whole scroll signal *)

Lemma renderIfVisible_frame (a : nat) (w : World) :
  let w' := renderIfVisible a w in
  heap w' = heap w /\ wavesurfer w' = wavesurfer w /\ duration w' = duration w
  /\ scroll w' = scroll w /\ width w' = width w /\ clientWidth w' = clientWidth w.
Proof.
  cbn zeta. unfold renderIfVisible. destruct (negb (wavesurfer w)); [done |].
  destruct (heap w !! a) as [reg |]; [| done]. by destruct (isVisible reg w).
Qed.

Lemma isVisible_frame (reg : SingleRegion) (w w' : World) :
  duration w' = duration w -> scroll w' = scroll w -> width w' = width w ->
  clientWidth w' = clientWidth w -> isVisible reg w' = isVisible reg w.
Proof. intros Hd Hs Hw Hc. unfold isVisible, pixels. by rewrite Hd, Hs, Hw, Hc. Qed.

Lemma renderIfVisible_other (a r : nat) (w : World) :
  a <> r -> includes (children (renderIfVisible a w)) r = includes (children w) r.
Proof.
  intros Hne. unfold renderIfVisible. destruct (wavesurfer w); cbn [negb]; [| done].
  destruct (heap w !! a) as [reg |]; [| done].
  assert (Nat.eqb r a = false) as Hneq by (apply Nat.eqb_neq; congruence).
  destruct (isVisible reg w); cbn [children appendChild removeChild with_children
    with_mutations].
  - rewrite includes_app, includes_without, Hneq. cbn. rewrite Hneq. by rewrite orb_false_r.
  - by rewrite includes_without, Hneq.
Qed.

Lemma render_all_other (r : nat) (subs : list nat) :
  forall w : World,
    ~ In r subs ->
    includes (children (foldl (fun w a => renderIfVisible a w) w subs)) r
    = includes (children w) r.
Proof.
  induction subs as [| a subs IH]; intros w Hnin; [done |].
  cbn [foldl]. rewrite IH by (intros H; apply Hnin; by right).
  apply renderIfVisible_other. intros ->. apply Hnin. by left.
Qed.

Lemma render_all_attached (r : nat) (reg : SingleRegion) (subs : list nat) :
  forall w : World,
    wavesurfer w = true -> heap w !! r = Some reg -> In r subs ->
    includes (children (foldl (fun w a => renderIfVisible a w) w subs)) r
    = isVisible reg w.
Proof.
  induction subs as [| a subs IH]; intros w Hws Hreg Hin; [done |].
  cbn [foldl]. destruct (renderIfVisible_frame a w) as (Hh & Hw & Hd & Hs & Hwd & Hc).
  destruct (in_dec Nat.eq_dec r subs) as [Hin' | Hnin].
  - rewrite IH; [| by rewrite Hw | by rewrite Hh | done]. by apply isVisible_frame.
  - destruct Hin as [-> | Hin]; [| done].
    rewrite render_all_other by done. by apply renderIfVisible_attached.
Qed.

(** X9: after a [scroll] signal of an attached host, the element of every
    region whose [renderIfVisible] listens to [scroll] is a child of the
    container exactly when the region is visible at the new scroll offset. *)
Theorem scroll_attaches_exactly_the_visible (x : Q) (r : nat) (w : World) (reg : SingleRegion) :
  wavesurfer w = true -> heap w !! r = Some reg -> In r (scrollSubs w) ->
  includes (children (on_scroll x w)) r = isVisible reg (with_scroll x w).
Proof. intros Hws Hreg Hin. unfold on_scroll. by apply render_all_attached. Qed.

Lemma scroll_attaches_exactly_the_visible_witness :
  includes (children (on_scroll 50 Examples.shown_2_4)) 0%nat = false.
Proof.
  destruct (heap Examples.shown_2_4 !! 0%nat) as [reg |] eqn:Hreg;
    [| vm_compute in Hreg; discriminate].
  rewrite (scroll_attaches_exactly_the_visible 50 0%nat Examples.shown_2_4 reg).
  - vm_compute in Hreg. injection Hreg as <-. by vm_compute.
  - reflexivity.
  - done.
  - vm_compute. by left.
Defined.

(** X10: when [remove()] is called on a persisted region after its
    virtualization timer has run, the region's [renderIfVisible] no longer
    listens to [scroll]: whatever the host scrolls to afterwards, the element
    stays out of the container. *)
Theorem remove_ends_virtualization (x : Q) (r : nat) (w : World) (reg : SingleRegion) :
  persisted r w -> heap w !! r = Some reg -> In VirtualRemove (listeners reg) ->
  exists w',
    remove r w = Returned w'
    /\ ~ In r (scrollSubs w')
    /\ includes (children w') r = false
    /\ includes (children (on_scroll x w')) r = false.
Proof.
  intros Hp Hreg Hvr.
  destruct (remove_persisted_facts r w reg Hp Hreg)
    as (w' & Hret & _ & _ & _ & _ & C1 & _ & _ & _ & S1).
  rewrite bool_decide_eq_true_2 in S1 by (by apply list_elem_of_In).
  assert (~ In r (scrollSubs w')) as Hnin by (rewrite S1; apply without_not_in).
  assert (includes (children w') r = false) as Hch.
  { rewrite C1. apply includes_false_iff, without_not_in. }
  exists w'. split; [done |]. split; [done |]. split; [done |].
  unfold on_scroll. by rewrite render_all_other.
Qed.

Lemma remove_ends_virtualization_witness :
  exists w',
    remove 0%nat Examples.shown_2_4 = Returned w'
    /\ includes (children (on_scroll 0 w')) 0%nat = false.
Proof.
  assert (persisted 0%nat Examples.shown_2_4) as Hp.
  { split; [vm_compute; by left |].
    eexists. split; [by vm_compute |]. split; [by eexists |]. right. by vm_compute. }
  destruct (heap Examples.shown_2_4 !! 0%nat) as [reg |] eqn:Hreg;
    [| vm_compute in Hreg; discriminate].
  destruct (remove_ends_virtualization 0 0%nat Examples.shown_2_4 reg Hp Hreg)
    as (w' & Hret & _ & _ & Hout).
  - vm_compute in Hreg. injection Hreg as <-. vm_compute. tauto.
  - exists w'. split; [exact Hret | exact Hout].
Defined.

Lemma Math_round_nonneg (x : Q) : 0 <= x -> 0 <= JS.Math_round x.
Proof.
  intros Hx. unfold JS.Math_round.
  assert (0 <= Qfloor (x + (1 # 2)))%Z as H.
  { change 0%Z with (Qfloor 0). apply Qfloor_resp_le. lra. }
  change 0 with (inject_Z 0). by rewrite <- Zle_Qle.
Qed.

Lemma or_else_one_ge (x : Q) : 0 <= JS.Math_round x -> 1 <= JS.or_else (JS.Math_round x) 1.
Proof.
  unfold JS.or_else, JS.Math_round. intros H.
  destruct (Qeq_bool (inject_Z (Qfloor (x + (1 # 2)))) 0) eqn:E; [lra |].
  change 0 with (inject_Z 0) in H. rewrite <- Zle_Qle in H.
  assert (Qfloor (x + (1 # 2)) <> 0%Z) as Hne.
  { intros Heq. rewrite Heq in E. discriminate. }
  change 1 with (inject_Z 1). rewrite <- Zle_Qle. lia.
Qed.

(** X11: for a region with [start <= end] on a host with a positive
    duration and a positive visible width, the pixel interval that
    [renderIfVisible] computes is at least one pixel wide (a marker counts as
    one pixel), and the region is found visible exactly when that interval
    and the visible window [[scroll, scroll + width)] have a point in
    common. *)
Theorem visible_iff_pixels_meet_window (reg : SingleRegion) (w : World) :
  0 < duration w -> 0 < width w -> 0 <= clientWidth w -> start reg <= end_ reg ->
  exists startPx widthPx,
    pixels reg w = Some (startPx, widthPx)
    /\ 1 <= widthPx
    /\ (isVisible reg w = true <->
        exists x, (startPx <= x /\ x < startPx + widthPx)
                  /\ (scroll w <= x /\ x < scroll w + width w)).
Proof.
  intros Hd Hw Hc Hse.
  assert (pixels reg w
          = Some (JS.Math_round (JS.mul (JS.round (start reg / duration w)) (clientWidth w)),
                  JS.or_else
                    (JS.Math_round
                       (JS.mul (JS.round (JS.sub (end_ reg) (start reg) / duration w))
                          (clientWidth w))) 1)) as Hpx.
  { unfold pixels. by rewrite !quot_nonzero by lra. }
  eexists. eexists. split; [exact Hpx |].
  assert (1 <= JS.or_else
                 (JS.Math_round
                    (JS.mul (JS.round (JS.sub (end_ reg) (start reg) / duration w))
                       (clientWidth w))) 1) as H1.
  { apply or_else_one_ge, Math_round_nonneg, mul_nonneg; [| done].
    apply div_round_nonneg; [by apply sub_nonneg | done]. }
  split; [done |]. apply (isVisible_intersects _ _ _ _ Hpx); [lra | done].
Qed.

Lemma visible_iff_pixels_meet_window_witness :
  exists startPx widthPx,
    pixels (Region.new (Examples.params 5 None) 10) Examples.host10 = Some (startPx, widthPx)
    /\ 1 <= widthPx.
Proof.
  destruct (visible_iff_pixels_meet_window (Region.new (Examples.params 5 None) 10)
              Examples.host10) as (s & wd & H1 & H2 & _);
    [by vm_compute .. |].
  exists s, wd. split; [exact H1 | exact H2].
Defined.

(** ** Immediate creation *)

(** X12: on a plugin without a host [addRegion] throws before it has done
    anything.  On an attached plugin whose host has a positive duration it
    returns a new region object with [start] and [end] in
    [[0, duration]], which is persisted at once: it is the last member of the
    collection and occurs there once (the collection referring to existing
    objects), one [region-created] has been emitted and the virtualization
    timer is queued. *)
Theorem addRegion_persists_at_once (options : RegionParams) (w : World) :
  (wavesurfer w = false -> addRegion options w = None)
  /\ (wavesurfer w = true -> 0 < duration w -> collection_allocated w ->
      exists r w1 reg1,
        addRegion options w = Some (r, w1)
        /\ heap w !! r = None /\ heap w1 !! r = Some reg1
        /\ in_range reg1 /\ totalDuration reg1 = duration w
        /\ persisted r w1
        /\ regions_of w1 = regions_of w ++ [r]
        /\ occurrences r (regions_of w1) = 1%nat
        /\ emitted w1 = emitted w ++ [RegionCreated r]
        /\ timers w1 = timers w ++ [VirtualAppendTimer r]).
Proof.
  split.
  - intros Hws. unfold addRegion. by rewrite Hws.
  - intros Hws Hd Halloc. unfold addRegion. rewrite Hws. cbn [negb].
    assert (JS.eq (duration w) 0 = false) as ->.
    { apply not_true_iff_false. rewrite JS_eq_iff. lra. }
    set (r := fresh (dom (heap w))).
    assert (heap w !! r = None) as Hfresh by (apply not_elem_of_dom, is_fresh).
    set (w0 := with_heap _ w).
    assert (heap w0 !! r = Some (Region.new options (duration w))) as H0
      by (subst w0; cbn; by rewrite lookup_insert_eq).
    assert (regions_of w0 = regions_of w /\ emitted w0 = emitted w /\ timers w0 = timers w)
      as (R0 & E0 & T0) by done.
    clearbody w0.
    destruct (new_fields options (duration w)) as (Hel & Hls & _).
    destruct (saveRegion_fields r w0) as (Hh & Hr & He & Ht & _).
    pose proof (saveRegion_persisted r w0 _ H0 Hel Hls) as Hp.
    exists r, (saveRegion r w0). eexists.
    split; [done |]. split; [done |].
    split; [rewrite Hh, lookup_alter_eq, H0; reflexivity |].
    split; [apply (new_in_range options (duration w)); lra |].
    split; [done |]. split; [done |]. split; [by rewrite Hr, R0 |]. split.
    { rewrite Hr, R0, occurrences_app, occurrences_self, occurrences_not_in; [done |].
      intros Hin. destruct (Halloc r Hin) as [x Hx]. congruence. }
    split; [by rewrite He, E0 | by rewrite Ht, T0].
Qed.

Lemma addRegion_persists_at_once_witness :
  exists r w1,
    addRegion (Examples.params 2 (Some 4)) Examples.host10 = Some (r, w1)
    /\ persisted r w1.
Proof.
  destruct (addRegion_persists_at_once (Examples.params 2 (Some 4)) Examples.host10)
    as [_ H].
  destruct H as (r & w1 & reg1 & Hadd & _ & _ & _ & _ & Hp & _).
  - reflexivity.
  - by vm_compute.
  - intros x Hx. vm_compute in Hx. destruct Hx.
  - by exists r, w1.
Defined.

(** X13: when [addRegion] returns on an attached host with a positive
    duration and no pending timer, the container's children are what they were
    although [region-created] has been emitted: the new element is not attached
    yet.  Once the event loop has run the timer of [virtualAppend], the element
    is a child of the container exactly when the region is visible, the
    region's [renderIfVisible] listens to [scroll], the region is still
    persisted, and no timer is left. *)
Theorem new_region_is_attached_by_the_timer (options : RegionParams) (w : World) :
  wavesurfer w = true -> 0 < duration w -> timers w = [] ->
  exists r w1 reg1,
    addRegion options w = Some (r, w1)
    /\ heap w1 !! r = Some reg1
    /\ children w1 = children w
    /\ emitted w1 = emitted w ++ [RegionCreated r]
    /\ let w2 := tick w1 in
       includes (children w2) r = isVisible reg1 w
       /\ In r (scrollSubs w2)
       /\ persisted r w2
       /\ timers w2 = [].
Proof.
  intros Hws Hd Ht. unfold addRegion. rewrite Hws. cbn [negb].
  assert (JS.eq (duration w) 0 = false) as ->.
  { apply not_true_iff_false. rewrite JS_eq_iff. lra. }
  set (r := fresh (dom (heap w))).
  set (w0 := with_heap _ w).
  assert (heap w0 !! r = Some (Region.new options (duration w))) as H0
    by (subst w0; cbn; by rewrite lookup_insert_eq).
  assert (children w0 = children w /\ emitted w0 = emitted w /\ timers w0 = timers w
          /\ wavesurfer w0 = wavesurfer w /\ duration w0 = duration w
          /\ scroll w0 = scroll w /\ width w0 = width w /\ clientWidth w0 = clientWidth w)
    as (C0 & E0 & T0 & W0 & D0 & S0 & Wd0 & Cw0) by done.
  clearbody w0.
  destruct (new_fields options (duration w)) as (Hel & Hls & _).
  destruct (saveRegion_fields r w0) as (Hh & Hr & He & Htm & _).
  set (reg1 := Region.with_listeners
                 (listeners (Region.new options (duration w)) ++ regionSubscriptions)
                 (Region.new options (duration w))).
  assert (heap (saveRegion r w0) !! r = Some reg1) as H1
    by (by rewrite Hh, lookup_alter_eq, H0).
  exists r, (saveRegion r w0), reg1.
  split; [done |]. split; [done |]. split; [done |]. split; [by rewrite He, E0 |].
  cbn zeta. unfold tick. rewrite Htm, T0, Ht. cbn [app run_timer].
  set (w1 := with_timers [] (saveRegion r w0)).
  assert (heap w1 !! r = Some reg1) as H1' by done.
  assert (wavesurfer w1 = true) as W1 by (subst w1; cbn; by rewrite W0).
  assert (isVisible reg1 w1 = isVisible reg1 w) as V1.
  { apply isVisible_frame; subst w1; cbn; congruence. }
  assert (In r (regions_of w1)) as R1.
  { change (regions_of w1) with (regions_of (saveRegion r w0)).
    rewrite Hr. apply in_or_app. right. by left. }
  assert (timers w1 = []) as T1 by done.
  clearbody w1. rewrite W1. cbn [negb].
  pose proof (renderIfVisible_attached r w1 reg1 W1 H1') as Hatt.
  destruct (renderIfVisible_frame r w1) as (Hh2 & _).
  assert (regions_of (renderIfVisible r w1) = regions_of w1
          /\ timers (renderIfVisible r w1) = timers w1) as (R2 & T2).
  { unfold renderIfVisible. rewrite W1, H1'. cbn [negb].
    by destruct (isVisible reg1 w1). }
  set (w2 := renderIfVisible r w1) in *. clearbody w2.
  split.
  { cbn [children update_region with_heap with_scrollSubs]. by rewrite Hatt. }
  split.
  { cbn [scrollSubs update_region with_heap with_scrollSubs].
    apply in_or_app. right. by left. }
  split; [| cbn [timers update_region with_heap with_scrollSubs]; by rewrite T2].
  split; [change (In r (regions_of w2)); by rewrite R2 |].
  eexists. split.
  { cbn [heap update_region with_heap with_scrollSubs].
    rewrite lookup_alter_eq, Hh2, H1'. reflexivity. }
  subst reg1. cbn [element listeners Region.with_listeners]. split; [done |].
  right. by rewrite Hls.
Qed.

Lemma new_region_is_attached_by_the_timer_witness :
  exists r w1,
    addRegion (Examples.params 2 (Some 4)) Examples.host10 = Some (r, w1)
    /\ children w1 = [] /\ includes (children (tick w1)) r = true.
Proof.
  destruct (new_region_is_attached_by_the_timer (Examples.params 2 (Some 4)) Examples.host10)
    as (r & w1 & reg1 & Hadd & Hreg1 & Hc & _ & Hatt & _); [by vm_compute .. |].
  exists r, w1. split; [exact Hadd |]. split; [exact Hc |].
  rewrite Hatt. clear Hatt Hc. vm_compute in Hadd. injection Hadd as <- <-.
  vm_compute in Hreg1. injection Hreg1 as <-. by vm_compute.
Defined.

(** ** Creating a region by dragging *)



(** With a wrapper that has a width the quotient is finite. *)
Lemma ext_quot_nonzero (a b : Q) :
  ~ b == 0 -> DragSelection.ext_quot a b = Some (DragSelection.Fin (JS.round (a / b))).
Proof.
  intros Hb. unfold DragSelection.ext_quot.
  destruct (JS.eq b 0) eqn:E; [| done]. by apply JS_eq_iff in E.
Qed.

(** An update of a region nobody listens to stays inside the region. *)
Lemma _onUpdate_unheard (dx : Q) (side : option Side) (r : nat) (w : World) (reg : SingleRegion) :
  heap w !! r = Some reg -> listeners reg = [] ->
  let w' := outcome_state (_onUpdate dx side r w) in
  emitted w' = emitted w /\ regions_of w' = regions_of w
  /\ exists reg', heap w' !! r = Some reg' /\ listeners reg' = []
                  /\ (is_Some (element reg) -> is_Some (element reg')).
Proof.
  intros Hreg Hls. cbn zeta. unfold _onUpdate. rewrite Hreg.
  destruct (element reg) as [el |] eqn:Hel; [| split; [done |]; split; [done |]; by exists reg].
  destruct (negb (includes (children w) r));
    [split; [done |]; split; [done |]; exists reg; by rewrite Hel |].
  destruct (JS.quot dx (rectWidth w)) as [q |];
    [| split; [done |]; split; [done |]; exists reg; by rewrite Hel].
  destruct (Region.accepts reg _);
    [| split; [done |]; split; [done |]; exists reg; by rewrite Hel].
  unfold lift. rewrite Hreg.
  unfold Region.renderPosition, Region.on_element. cbn [element Region.with_bounds].
  rewrite Hel. cbn [outcome_bind outcome_state].
  erewrite emit_unheard; [| cbn [heap with_heap]; apply lookup_insert_eq | done].
  split; [done |]. split; [done |].
  eexists. split.
  { cbn [heap update_region with_heap]. rewrite lookup_alter_eq, lookup_insert_eq.
    reflexivity. }
  split; [done |]. intros _. by eexists.
Qed.

Lemma moves_unheard (r : nat) (c : DragSelection.Closure) (l : list (Q * Q)) :
  DragSelection.region c = Some r ->
  forall (w : World) (reg : SingleRegion),
    heap w !! r = Some reg -> listeners reg = [] -> is_Some (element reg) ->
    let w' := DragSelection.moves l c w in
    emitted w' = emitted w /\ regions_of w' = regions_of w
    /\ exists reg', heap w' !! r = Some reg' /\ listeners reg' = []
                    /\ is_Some (element reg').
Proof.
  intros Hc. induction l as [| [dx x] l IH]; intros w reg Hreg Hls Hel.
  - cbn. split; [done |]. split; [done |]. by exists reg.
  - cbn [DragSelection.moves].
    assert (DragSelection.onDragMove dx x c w
            = _onUpdate dx
                (Some (if JS.gt x (DragSelection.startX c) then SideEnd else SideStart)) r w)
      as -> by (unfold DragSelection.onDragMove; by rewrite Hc).
    destruct (_onUpdate_unheard dx
                (Some (if JS.gt x (DragSelection.startX c) then SideEnd else SideStart))
                r w reg Hreg Hls) as (E1 & R1 & reg1 & H1 & L1 & El1).
    destruct (IH _ reg1 H1 L1 (El1 Hel)) as (E2 & R2 & H2).
    cbn zeta. rewrite E2, R2, E1, R1. by repeat split.
Qed.

(** X14: a drag on the wrapper of an attached host (its bounding rectangle
    being [width > 0] wide, the collection referring to existing objects)
    creates one region.  At the start of the drag a new region object exists
    whose element is a child of the container, but the region is not in the
    collection and the plugin has emitted nothing.  Whatever moves follow, the
    plugin emits nothing for them and the region stays out of the collection.
    The end of the drag persists the region: it then occurs once in the
    collection, one [region-created] has been emitted, and the closure holds
    no region any more, so a further drag end does nothing. *)
Theorem drag_selection_creates_one_region
    (options : RegionParams) (width x : Q) (c : DragSelection.Closure)
    (l : list (Q * Q)) (w : World) :
  wavesurfer w = true -> 0 < width -> collection_allocated w ->
  exists r c1 w1,
    DragSelection.onDragStart options width x c w = Some (c1, w1)
    /\ DragSelection.region c1 = Some r /\ DragSelection.startX c1 = x
    /\ heap w !! r = None /\ is_Some (heap w1 !! r)
    /\ includes (children w1) r = true
    /\ ~ In r (regions_of w1) /\ emitted w1 = emitted w
    /\ let w2 := DragSelection.moves l c1 w1 in
       emitted w2 = emitted w /\ ~ In r (regions_of w2)
       /\ exists c3 w3,
           DragSelection.onDragEnd c1 w2 = (c3, w3)
           /\ DragSelection.region c3 = None
           /\ persisted r w3
           /\ occurrences r (regions_of w3) = 1%nat
           /\ emitted w3 = emitted w ++ [RegionCreated r]
           /\ DragSelection.onDragEnd c3 w3 = (c3, w3).
Proof.
  intros Hws Hw Halloc. unfold DragSelection.onDragStart. rewrite Hws. cbn [negb].
  rewrite !ext_quot_nonzero by lra. cbn [mbind option_bind DragSelection.ext_mul].
  match goal with |- context [Region.new ?p ?d] =>
    destruct (new_fields p d) as (Hel & Hls & _) end.
  set (reg := Region.new _ (duration w)) in *.
  set (r := fresh (dom (heap w))).
  assert (heap w !! r = None) as Hfresh by (apply not_elem_of_dom, is_fresh).
  assert (~ In r (regions_of w)) as Hnin.
  { intros Hin. destruct (Halloc r Hin) as [y Hy]. congruence. }
  set (w1 := appendChild r _).
  assert (heap w1 !! r = Some reg) as H1 by (subst w1; cbn; by rewrite lookup_insert_eq).
  assert (emitted w1 = emitted w /\ regions_of w1 = regions_of w) as (E1 & R1) by done.
  assert (includes (children w1) r = true) as C1.
  { subst w1. cbn [children appendChild with_children with_mutations with_heap].
    rewrite includes_app. cbn. rewrite Nat.eqb_refl. apply orb_true_r. }
  clearbody w1.
  exists r. eexists. exists w1. split; [reflexivity |].
  split; [done |]. split; [done |]. split; [done |]. split; [by rewrite H1 |].
  split; [done |]. split; [by rewrite R1 |]. split; [done |].
  destruct (moves_unheard r {| DragSelection.region := Some r; DragSelection.startX := x |}
              l eq_refl w1 reg H1 Hls Hel) as (E2 & R2 & reg2 & H2 & L2 & El2).
  cbn zeta. set (w2 := DragSelection.moves l _ w1) in *. clearbody w2.
  split; [by rewrite E2 |]. split; [by rewrite R2, R1 |].
  unfold DragSelection.onDragEnd at 1. cbn [DragSelection.region DragSelection.startX].
  eexists. eexists. split; [reflexivity |]. split; [done |].
  destruct (saveRegion_fields r w2) as (_ & Hr & He & _).
  split; [by apply (saveRegion_persisted r w2 reg2) |].
  split.
  { rewrite Hr, occurrences_app, occurrences_self, occurrences_not_in; [done |].
    by rewrite R2, R1. }
  split; [by rewrite He, E2, E1 |]. done.
Qed.

Lemma drag_selection_creates_one_region_witness :
  exists r c1 w1 c3 w3,
    DragSelection.onDragStart (Examples.params 0 None) 100 20
      {| DragSelection.region := None; DragSelection.startX := 0 |} Examples.host10
    = Some (c1, w1)
    /\ DragSelection.region c1 = Some r
    /\ DragSelection.onDragEnd c1 (DragSelection.moves [(10, 30)] c1 w1) = (c3, w3)
    /\ persisted r w3.
Proof.
  destruct (drag_selection_creates_one_region (Examples.params 0 None) 100 20
              {| DragSelection.region := None; DragSelection.startX := 0 |}
              [(10, 30)] Examples.host10)
    as (r & c1 & w1 & Hs & Hc & _ & _ & _ & _ & _ & _ & _ & _ & c3 & w3 & He & _ & Hp & _).
  - reflexivity.
  - by vm_compute.
  - intros y Hy. vm_compute in Hy. destruct Hy.
  - exists r, c1, w1, c3, w3.
    split; [exact Hs |]. split; [exact Hc |]. split; [exact He | exact Hp].
Defined.



(** ** Scrolling to a moved region *)

(** X17: [adjustScroll] writes [scrollLeft] and nothing else of the scroll
    container.  With [left] and [right] the doubles it computes for the edges
    of the region's rectangle counted from the container's left edge, it
    leaves [scrollLeft] alone when the content is not wider than the
    container and when [0 <= left] and [right <= clientWidth].  Otherwise, for
    a [scrollLeft] that is a double, a region that sticks out on the left
    ([left < 0]) makes it [scrollLeft + left], which is not larger than
    before, and a region that sticks out on the right only makes it
    [scrollLeft + (right - clientWidth)], which is not smaller than before;
    sums and differences are those of doubles. *)
Theorem adjustScroll_moves_towards_region
    (c : Layout.ScrollContainer) (bboxLeft bboxRight : Q) :
  JS.round (Layout.scrollLeft c) == Layout.scrollLeft c ->
  let c' := Layout.adjustScroll c bboxLeft bboxRight in
  let left := JS.sub bboxLeft (Layout.rectLeft c) in
  let right := JS.sub bboxRight (Layout.rectLeft c) in
  (Layout.clientWidth c', Layout.scrollWidth c', Layout.rectLeft c')
  = (Layout.clientWidth c, Layout.scrollWidth c, Layout.rectLeft c)
  /\ (Layout.scrollWidth c <= Layout.clientWidth c -> c' = c)
  /\ (0 <= left -> right <= Layout.clientWidth c -> c' = c)
  /\ (Layout.clientWidth c < Layout.scrollWidth c ->
      (left < 0 ->
       Layout.scrollLeft c' = JS.add (Layout.scrollLeft c) left
       /\ Layout.scrollLeft c' <= Layout.scrollLeft c)
      /\ (0 <= left -> Layout.clientWidth c < right ->
          Layout.scrollLeft c'
          = JS.add (Layout.scrollLeft c) (JS.sub right (Layout.clientWidth c))
          /\ Layout.scrollLeft c <= Layout.scrollLeft c')).
Proof.
  intros Hsl. cbn zeta. unfold Layout.adjustScroll.
  set (left := JS.sub bboxLeft (Layout.rectLeft c)).
  set (right := JS.sub bboxRight (Layout.rectLeft c)).
  destruct (JS.le (Layout.scrollWidth c) (Layout.clientWidth c)) eqn:E1.
  { apply JS_le_iff in E1. repeat split; try done; intros; lra. }
  assert (~ Layout.scrollWidth c <= Layout.clientWidth c) as N1
    by (rewrite <- JS_le_iff; congruence).
  destruct (JS.lt left 0) eqn:E2.
  { apply JS_lt_iff in E2. cbn. repeat split; try done; intros; try lra.
    unfold JS.add. rewrite <- Hsl at 2. apply round_mono. lra. }
  assert (~ left < 0) as N2 by (rewrite <- JS_lt_iff; congruence).
  destruct (JS.gt right (Layout.clientWidth c)) eqn:E3.
  { apply JS_gt_iff in E3. cbn. repeat split; try done; intros; try lra.
    unfold JS.add. rewrite <- Hsl at 1. apply round_mono.
    assert (0 <= JS.sub right (Layout.clientWidth c)) by (apply round_nonneg; lra).
    lra. }
  assert (~ Layout.clientWidth c < right) as N3 by (rewrite <- JS_gt_iff; congruence).
  repeat split; try done; intros; lra.
Qed.

Lemma adjustScroll_moves_towards_region_witness :
  Layout.scrollLeft
    (Layout.adjustScroll
       {| Layout.clientWidth := 100; Layout.scrollWidth := 400;
          Layout.scrollLeft := 50; Layout.rectLeft := 10 |} 0 30)
  = 40.
Proof.
  destruct (adjustScroll_moves_towards_region
              {| Layout.clientWidth := 100; Layout.scrollWidth := 400;
                 Layout.scrollLeft := 50; Layout.rectLeft := 10 |} 0 30)
    as (_ & _ & _ & H); [by vm_compute |].
  destruct H as [H _]; [by vm_compute |].
  destruct H as [H _]; [by vm_compute |].
  etransitivity; [exact H |]. by vm_compute.
Defined.

(** ** The timeline's notches *)




Lemma alternation_snoc (first : Timeline.DomCall) (n : nat) :
  Ruler.alternation first (S n)
  = Ruler.alternation first n
    ++ [if Nat.even n then first
        else match first with
             | Timeline.AppendChild => Timeline.RemoveElement
             | Timeline.RemoveElement => Timeline.AppendChild
             end].
Proof.
  revert first. induction n as [| n IH]; intros first; [done |].
  change (Ruler.alternation first (S (S n)))
    with (first :: Ruler.alternation
                     (match first with
                      | Timeline.AppendChild => Timeline.RemoveElement
                      | Timeline.RemoveElement => Timeline.AppendChild
                      end) (S n)).
  rewrite IH. cbn [Ruler.alternation app]. f_equal. f_equal. f_equal.
  rewrite Nat.even_succ, <- Nat.negb_even.
  destruct (Nat.even n), first; done.
Qed.

(** What every state of a notch's closure satisfies. *)
Lemma virtualAppend_invariant (start width : Q) (bounds : list (Q * Q)) :
  let n := Ruler.virtualAppend start width bounds in
  Timeline.attached n = Timeline.wasVisible n
  /\ Timeline.wasVisible n = Nat.odd (length (Timeline.calls n))
  /\ Timeline.calls n = Ruler.alternation Timeline.AppendChild (length (Timeline.calls n)).
Proof.
  cbn zeta. unfold Ruler.virtualAppend.
  induction bounds as [| [l r] bounds IH] using rev_ind; [done |].
  rewrite foldl_app. cbn [foldl].
  set (n := foldl _ Ruler.fresh_notch bounds) in *. clearbody n.
  destruct IH as (Ha & Hv & Hc). unfold Timeline.renderIfVisible.
  destruct (JS.gt start l && JS.lt (start + width) r) eqn:E;
    destruct (Timeline.wasVisible n) eqn:Ew; cbn [Bool.eqb];
    cbn [Timeline.attached Timeline.wasVisible Timeline.calls];
    rewrite ?Ew; try done;
    rewrite length_app, Nat.add_1_r, alternation_snoc, <- Hc, Nat.odd_succ;
    rewrite <- Nat.negb_odd, <- Hv; done.
Qed.

(** X19: the closure that [virtualAppend] of the timeline makes for a notch,
    run first at once and then on any sequence of [scroll] signals, keeps the
    notch attached exactly when it was visible at the last run, where visible
    means strictly inside: [scrollLeft < start] and
    [start + width < scrollRight].  Its DOM calls alternate, beginning with
    [appendChild]: an attached notch is never appended again and a detached
    one never removed.  A notch that is never strictly to the right of
    [scrollLeft] (the notch at 0 while the scroll offset is not negative) is
    never attached and causes no DOM call. *)
Theorem timeline_notch_follows_visibility (start width : Q) (bounds : list (Q * Q)) :
  let n := Ruler.virtualAppend start width bounds in
  Timeline.calls n = Ruler.alternation Timeline.AppendChild (length (Timeline.calls n))
  /\ (forall scrollLeft scrollRight,
        last bounds = Some (scrollLeft, scrollRight) ->
        Timeline.attached n = JS.gt start scrollLeft && JS.lt (start + width) scrollRight)
  /\ (Forall (fun b => start <= fst b) bounds ->
      Timeline.attached n = false /\ Timeline.calls n = []).
Proof.
  cbn zeta. split; [apply virtualAppend_invariant |]. split.
  - intros l r Hlast. apply last_Some in Hlast as [bounds' ->].
    destruct (virtualAppend_invariant start width bounds') as (Ha & _).
    unfold Ruler.virtualAppend in *. rewrite foldl_app. cbn [foldl].
    set (n := foldl _ Ruler.fresh_notch bounds') in *. clearbody n.
    unfold Timeline.renderIfVisible.
    destruct (JS.gt start l && JS.lt (start + width) r) eqn:E;
      destruct (Timeline.wasVisible n) eqn:Ew; cbn [Bool.eqb]; try done;
      by rewrite Ha, Ew.
  - intros Hall. unfold Ruler.virtualAppend.
    induction bounds as [| [l r] bounds IH] using rev_ind; [done |].
    apply Forall_app in Hall as [Hall Hb]. rewrite Forall_singleton in Hb.
    rewrite foldl_app. cbn [foldl]. destruct (IH Hall) as [Ha Hc].
    destruct (virtualAppend_invariant start width bounds) as (Ha' & _).
    unfold Ruler.virtualAppend in Ha'.
    set (n := foldl _ Ruler.fresh_notch bounds) in *. clearbody n.
    unfold Timeline.renderIfVisible.
    assert (JS.gt start l = false) as ->.
    { apply not_true_iff_false. rewrite JS_gt_iff. cbn in Hb. lra. }
    cbn [andb]. rewrite <- Ha', Ha. by cbn.
Qed.

Lemma timeline_notch_follows_visibility_witness :
  Timeline.attached (Ruler.virtualAppend 0 10 [(0, 100)]) = false
  /\ Timeline.attached (Ruler.virtualAppend 40 10 [(0, 100); (0, 100)]) = true
  /\ Timeline.calls (Ruler.virtualAppend 40 10 [(0, 100); (0, 100)]) = [Timeline.AppendChild].
Proof.
  destruct (timeline_notch_follows_visibility 0 10 [(0, 100)]) as (_ & _ & H).
  split; [| by vm_compute]. apply H. repeat constructor. by vm_compute.
Defined.

(** ** The zoom plugin *)

(** X24: [destroy] takes the wheel listener off the wrapper, but [onInit]
    put it on the container, the wrapper's parent: after [onInit] and
    [destroy] the container still holds the listener, the wrapper holds
    none, and the plugin still has the container that its wheel handler
    requires. *)
Theorem destroy_leaves_the_wheel_listener (h : Zoom.Host) (z : Zoom.ZoomPlugin) :
  let z' := Zoom.destroy (Zoom.onInit (Some h) z) in
  In Zoom.Container (Zoom.wheelListeners z')
  /\ ~ In Zoom.Wrapper (Zoom.wheelListeners z')
  /\ Zoom.container z' = true.
Proof.
  cbn zeta. unfold Zoom.destroy, Zoom.onInit. cbn.
  rewrite <- !list_elem_of_In, !list_elem_of_filter, elem_of_app, list_elem_of_singleton.
  repeat split; [by right |]. by intros [? _].
Qed.

(** ** The timeline's labels and notches *)










Lemma of_nat_succ_Q (n : nat) :
  inject_Z (Z.of_nat (S n)) == inject_Z (Z.of_nat n) + 1.
Proof. by rewrite Nat2Z.inj_succ, <- Z.add_1_r, inject_Z_plus. Qed.



(** With an interval that is not positive the loop never ends. *)
Lemma loop_diverges (body : Q -> nat -> TimelinePlugin.NotchSpec) (d t : Q) :
  t <= 0 ->
  forall (fuel : nat) (i : Q) (k : nat),
    i < d -> TimelinePlugin.loop fuel body d (Finite t) i k = None.
Proof.
  intros Ht. induction fuel as [| fuel IH]; intros i k Hi;
    apply JS_lt_iff in Hi as Hlt; cbn [TimelinePlugin.loop]; rewrite Hlt; [done |].
  rewrite IH by lra. done.
Qed.


Lemma rounds_lookup (body : Q -> nat -> TimelinePlugin.NotchSpec) (t : Q) (n : nat) :
  forall (i : Q) (k m : nat) (x : TimelinePlugin.NotchSpec),
    rounds body t i k n !! m = Some x ->
    (m < n)%nat
    /\ exists im, im == i + inject_Z (Z.of_nat m) * t /\ x = body im (k + m)%nat.
Proof.
  induction n as [| n IH]; intros i k m x Hx; [done |].
  destruct m as [| m]; cbn in Hx.
  - injection Hx as <-. split; [lia |]. exists i. split; [change (inject_Z (Z.of_nat 0)) with 0; lra |].
    by rewrite Nat.add_0_r.
  - apply IH in Hx as (Hm & im & Him & ->). split; [lia |]. exists im.
    split; [rewrite of_nat_succ_Q; lra |]. f_equal. lia.
Qed.


(** X27: with a positive duration and an interval [timeInterval] of zero or
    less given in the options, the loop of [initTimeline] never ends: no
    number of rounds is enough for it. *)
Theorem timeline_interval_must_be_positive (fuel : nat) (d w sw t : Q)
    (o : TimelinePlugin.Options) :
  0 < d ->
  TimelinePlugin.timeInterval o = Some t ->
  t <= 0 ->
  TimelinePlugin.initTimeline fuel (Some (d, w)) sw o = None.
Proof.
  intros Hd Ho Ht. unfold TimelinePlugin.initTimeline. cbv zeta.
  rewrite div_nonzero by lra. rewrite Ho. by apply loop_diverges.
Qed.

Lemma timeline_interval_must_be_positive_witness :
  TimelinePlugin.initTimeline 4 (Some (10, 200)) 0
    {| TimelinePlugin.duration := None; TimelinePlugin.timeInterval := Some 0;
       TimelinePlugin.primaryLabelInterval := None;
       TimelinePlugin.primaryLabelSpacing := None;
       TimelinePlugin.secondaryLabelInterval := None;
       TimelinePlugin.secondaryLabelSpacing := None |} = None.
Proof.
  apply (timeline_interval_must_be_positive 4 10 200 0 0);
    [by vm_compute | reflexivity | by vm_compute].
Defined.





(** ** The rendered position of a region *)







